(** * universe-sim: the per-frame pipeline of [src/main.js]

    A shallow embedding of the mutable module state of [main.js] (orbit
    controls, simulation clock, planet meshes, trail buffers, selection)
    and of the functions and event handlers that change it.

    Numbers.  A JavaScript number is modelled as an exact rational ([Q]):
    the arithmetic of the handlers is kept as written, while rounding, NaN
    and the infinities of IEEE doubles are outside the model.  Counters and
    array indices ([count], [maxPts], the loop index) are natural numbers.

    Exceptions.  A JavaScript function that may throw returns an
    [Outcome]: the store as it is when the function returns, or as it is
    when the exception leaves it.

    External libraries.  [HelioVector] (astronomy-engine) and [Math.cos],
    [Math.sin] are parameters of the development; three.js objects are
    records of the fields the handlers read and write.  Of the [date] of
    an astronomy-engine time only its validity as a JavaScript Date is
    kept, on which [toISOString] depends. *)

From Stdlib Require Import QArith Qminmax Qabs Lqa Lia.
From stdpp Require Import gmap strings list fin_maps.

Local Open Scope Q_scope.

(** ** Numbers *)

Definition Math_min (a b : Q) : Q := Qmin a b.
Definition Math_max (a b : Q) : Q := Qmax a b.

(** [Math.sign]: -1, 0 or 1. *)
Definition Math_sign (a : Q) : Q := inject_Z (Z.sgn (Qnum a)).

(** ** three.js vectors *)

Module Vector3.
Record t : Type := mk { x : Q; y : Q; z : Q }.
End Vector3.

Definition multiplyScalar (v : Vector3.t) (k : Q) : Vector3.t :=
  Vector3.mk (Vector3.x v * k) (Vector3.y v * k) (Vector3.z v * k).

Definition addScaledVector (t v : Vector3.t) (k : Q) : Vector3.t :=
  Vector3.mk (Vector3.x t + Vector3.x v * k) (Vector3.y t + Vector3.y v * k)
             (Vector3.z t + Vector3.z v * k).

(** ** astronomy-engine *)

(** The members of astronomy-engine's [Body] that the catalog names. *)
Inductive Body : Type :=
  Mercury | Venus | Earth | Mars | Jupiter | Saturn | Uranus | Neptune.

(** An [AstroTime]; [ut] is in days since J2000. *)
Record AstroTime : Type := mkAstroTime { ut : Q }.

(** [MakeTime] on a number keeps it as the [ut] of the new time. *)
Definition MakeTime (days : Q) : AstroTime := mkAstroTime days.

(** The [date] of a time.  The library builds it as
    [new Date(J2000.getTime() + ut * MillisPerDay)], with J2000 at
    946728000000 ms after the epoch; a JS Date holds a time value only
    within 8.64e15 ms of the epoch, and is an invalid Date beyond it. *)
Definition date_ms (t : AstroTime) : Q := 946728000000 + ut t * 86400000.

Definition date_valid (t : AstroTime) : bool :=
  Qle_bool (-8640000000000000) (date_ms t)
  && Qle_bool (date_ms t) 8640000000000000.

(** ** The catalog *)

Module Planet.
Record t : Type := mk
  { key : string; body : Body; color : N; size : Q; desc : string }.
End Planet.

Definition AU_TO_UNITS : Q := 220.

Definition bodies : list Planet.t :=
  [ Planet.mk "Mercury" Mercury 0xbab3a6 3.2 "Small, fast, cratered.";
    Planet.mk "Venus" Venus 0xe6c48c 6.2 "Thick atmosphere, hottest surface.";
    Planet.mk "Earth" Earth 0x4fa3ff 6.4 "Home. 1 AU baseline.";
    Planet.mk "Mars" Mars 0xe36a3b 4.2 "Red planet, thin atmosphere.";
    Planet.mk "Jupiter" Jupiter 0xd9b38c 14.0 "Gas giant, many moons.";
    Planet.mk "Saturn" Saturn 0xf2d39c 12.0 "Rings, low density.";
    Planet.mk "Uranus" Uranus 0x8fe7ff 9.5 "Ice giant, extreme tilt.";
    Planet.mk "Neptune" Neptune 0x3a6bff 9.2 "Ice giant, strong winds." ].

(** ** Trails *)

(** A [THREE.Line] of a trail: the flat [Float32Array] of its position
    attribute (three numbers per point), the draw range of its geometry
    (start, count) and its [visible] flag. *)
Module Line.
Record t : Type := mk
  { array : list Q; drawRange : nat * nat; needsUpdate : bool;
    visible : bool }.
End Line.

(** The value of a [trails] entry: [{ line, maxPts, count }]. *)
Module Trail.
Record t : Type := mk { line : Line.t; maxPts : nat; count : nat }.
End Trail.

(** The trail made for a planet by the start-up loop: 220 points of zeros,
    nothing drawn. *)
Definition newTrail : Trail.t :=
  let maxPts := 220%nat in
  Trail.mk (Line.mk (replicate (maxPts * 3) 0) (0%nat, 0%nat) false true)
           maxPts 0.

(** The points three.js draws for a line: the vertices of the draw range,
    in index order. *)
Definition vertex (arr : list Q) (i : nat) : option Vector3.t :=
  match arr !! (i * 3 + 0)%nat, arr !! (i * 3 + 1)%nat, arr !! (i * 3 + 2)%nat with
  | Some a, Some b, Some c => Some (Vector3.mk a b c)
  | _, _, _ => None
  end.

Definition drawn (l : Line.t) : list Vector3.t :=
  omap (vertex (Line.array l)) (seq (fst (Line.drawRange l)) (snd (Line.drawRange l))).

(** The trail block of [tick] (the body of [if (showTrails)]): one push. *)
Definition tick_trail (pos : Vector3.t) (tr : Trail.t) : Trail.t :=
  let arr := Line.array (Trail.line tr) in
  let idx := (Trail.count tr mod Trail.maxPts tr)%nat in
  let arr := <[(idx * 3 + 0)%nat := Vector3.x pos]> arr in
  let arr := <[(idx * 3 + 1)%nat := Vector3.y pos]> arr in
  let arr := <[(idx * 3 + 2)%nat := Vector3.z pos]> arr in
  let count := S (Trail.count tr) in
  Trail.mk
    (Line.mk arr (0%nat, Nat.min (Trail.maxPts tr) count) true
             (Line.visible (Trail.line tr)))
    (Trail.maxPts tr) count.

(** [resetTrails], on one entry. *)
Definition resetTrail (tr : Trail.t) : Trail.t :=
  Trail.mk
    (Line.mk (Line.array (Trail.line tr)) (0%nat, 0%nat)
             (Line.needsUpdate (Trail.line tr)) (Line.visible (Trail.line tr)))
    (Trail.maxPts tr) 0.

(** [line.visible = showTrails], on one entry. *)
Definition setVisible (b : bool) (tr : Trail.t) : Trail.t :=
  Trail.mk
    (Line.mk (Line.array (Trail.line tr)) (Line.drawRange (Trail.line tr))
             (Line.needsUpdate (Trail.line tr)) b)
    (Trail.maxPts tr) (Trail.count tr).

(** ** The module state *)

(** The variables of the orbit controls. *)
Module Controls.
Record t : Type := mk
  { isDragging : bool; isRightDragging : bool; lastX : Q; lastY : Q;
    yaw : Q; pitch : Q; distance : Q; target : Vector3.t }.
End Controls.

(** What the camera holds after [camera.position.set] and [camera.lookAt]. *)
Module Camera.
Record t : Type := mk { position : Vector3.t; lookAt : Vector3.t }.
End Camera.

(** What [setInfo] last wrote to the info element: the hint, or the panel
    of a planet, rendered from its entry, its position in AU and the date. *)
Inductive InfoPanel : Type :=
| InfoHint
| InfoPlanet (p : Planet.t) (helioAU : Vector3.t) (date : AstroTime).

Record State : Type := mkState
  { controls : Controls.t;
    camera : Camera.t;
    planetMeshes : list Vector3.t;          (* mesh.position of each mesh *)
    orbitLines : list (string * list Vector3.t);
    trails : gmap string Trail.t;
    selected : option Planet.t;
    info : InfoPanel;
    simTime : AstroTime;
    paused : bool;
    timeScale : Q;
    showTrails : bool;
    last : Q;                               (* milliseconds *)
    rendered : nat;                         (* calls of renderer.render *)
    framePending : bool }.                  (* a requested animation frame *)

Definition set_controls (v : Controls.t) (s : State) : State :=
  mkState v (camera s) (planetMeshes s) (orbitLines s) (trails s) (selected s)
    (info s) (simTime s) (paused s) (timeScale s) (showTrails s) (last s)
    (rendered s) (framePending s).
Definition set_camera (v : Camera.t) (s : State) : State :=
  mkState (controls s) v (planetMeshes s) (orbitLines s) (trails s) (selected s)
    (info s) (simTime s) (paused s) (timeScale s) (showTrails s) (last s)
    (rendered s) (framePending s).
Definition set_planetMeshes (v : list Vector3.t) (s : State) : State :=
  mkState (controls s) (camera s) v (orbitLines s) (trails s) (selected s)
    (info s) (simTime s) (paused s) (timeScale s) (showTrails s) (last s)
    (rendered s) (framePending s).
Definition set_orbitLines (v : list (string * list Vector3.t)) (s : State) : State :=
  mkState (controls s) (camera s) (planetMeshes s) v (trails s) (selected s)
    (info s) (simTime s) (paused s) (timeScale s) (showTrails s) (last s)
    (rendered s) (framePending s).
Definition set_trails (v : gmap string Trail.t) (s : State) : State :=
  mkState (controls s) (camera s) (planetMeshes s) (orbitLines s) v (selected s)
    (info s) (simTime s) (paused s) (timeScale s) (showTrails s) (last s)
    (rendered s) (framePending s).
Definition set_selected (v : option Planet.t) (s : State) : State :=
  mkState (controls s) (camera s) (planetMeshes s) (orbitLines s) (trails s) v
    (info s) (simTime s) (paused s) (timeScale s) (showTrails s) (last s)
    (rendered s) (framePending s).
Definition set_info (v : InfoPanel) (s : State) : State :=
  mkState (controls s) (camera s) (planetMeshes s) (orbitLines s) (trails s)
    (selected s) v (simTime s) (paused s) (timeScale s) (showTrails s) (last s)
    (rendered s) (framePending s).
Definition set_simTime (v : AstroTime) (s : State) : State :=
  mkState (controls s) (camera s) (planetMeshes s) (orbitLines s) (trails s)
    (selected s) (info s) v (paused s) (timeScale s) (showTrails s) (last s)
    (rendered s) (framePending s).
Definition set_paused (v : bool) (s : State) : State :=
  mkState (controls s) (camera s) (planetMeshes s) (orbitLines s) (trails s)
    (selected s) (info s) (simTime s) v (timeScale s) (showTrails s) (last s)
    (rendered s) (framePending s).
Definition set_timeScale (v : Q) (s : State) : State :=
  mkState (controls s) (camera s) (planetMeshes s) (orbitLines s) (trails s)
    (selected s) (info s) (simTime s) (paused s) v (showTrails s) (last s)
    (rendered s) (framePending s).
Definition set_showTrails (v : bool) (s : State) : State :=
  mkState (controls s) (camera s) (planetMeshes s) (orbitLines s) (trails s)
    (selected s) (info s) (simTime s) (paused s) (timeScale s) v (last s)
    (rendered s) (framePending s).
Definition set_last (v : Q) (s : State) : State :=
  mkState (controls s) (camera s) (planetMeshes s) (orbitLines s) (trails s)
    (selected s) (info s) (simTime s) (paused s) (timeScale s) (showTrails s) v
    (rendered s) (framePending s).
Definition set_rendered (v : nat) (s : State) : State :=
  mkState (controls s) (camera s) (planetMeshes s) (orbitLines s) (trails s)
    (selected s) (info s) (simTime s) (paused s) (timeScale s) (showTrails s)
    (last s) v (framePending s).
Definition set_framePending (v : bool) (s : State) : State :=
  mkState (controls s) (camera s) (planetMeshes s) (orbitLines s) (trails s)
    (selected s) (info s) (simTime s) (paused s) (timeScale s) (showTrails s)
    (last s) (rendered s) v.

(** How a call ends: it returns, or an exception leaves it; either way
    with the store as the call left it. *)
Inductive Outcome : Type :=
| Returned (s : State)
| Thrown (s : State).

Definition state_of (o : Outcome) : State :=
  match o with Returned s | Thrown s => s end.

Definition returned (o : Outcome) : bool :=
  match o with Returned _ => true | Thrown _ => false end.

(** ** Handlers that need no library call *)

(** [pointerdown] *)
Definition pointerdown (button : Z) (clientX clientY : Q) (s : State) : State :=
  let c := controls s in
  set_controls
    (Controls.mk true (Z.eqb button 2) clientX clientY
       (Controls.yaw c) (Controls.pitch c) (Controls.distance c)
       (Controls.target c)) s.

(** [pointerup] *)
Definition pointerup (s : State) : State :=
  let c := controls s in
  set_controls
    (Controls.mk false false (Controls.lastX c) (Controls.lastY c)
       (Controls.yaw c) (Controls.pitch c) (Controls.distance c)
       (Controls.target c)) s.

(** [pointermove].  [right] is what three.js leaves in the vector [right]
    after [camera.getWorldDirection(right)] and
    [right.cross(camera.up).normalize()]; only the pan branch reads it. *)
Definition pointermove (clientX clientY : Q) (right : Vector3.t) (s : State) : State :=
  let c := controls s in
  if negb (Controls.isDragging c) then s
  else
    let dx := clientX - Controls.lastX c in
    let dy := clientY - Controls.lastY c in
    if Controls.isRightDragging c then
      (* pan *)
      let panSpeed := Controls.distance c / 1200 in
      let up := Vector3.mk 0 1 0 in
      let target := addScaledVector (Controls.target c) right (- dx * panSpeed) in
      let target := addScaledVector target up (dy * panSpeed) in
      set_controls
        (Controls.mk (Controls.isDragging c) (Controls.isRightDragging c)
           clientX clientY (Controls.yaw c) (Controls.pitch c)
           (Controls.distance c) target) s
    else
      (* orbit *)
      let yaw := Controls.yaw c - dx * 0.005 in
      let pitch := Controls.pitch c - dy * 0.005 in
      let pitch := Math_max (-1.25) (Math_min 1.25 pitch) in
      set_controls
        (Controls.mk (Controls.isDragging c) (Controls.isRightDragging c)
           clientX clientY yaw pitch (Controls.distance c)
           (Controls.target c)) s.

(** [wheel] *)
Definition wheel (deltaY : Q) (s : State) : State :=
  let c := controls s in
  let delta := Math_sign deltaY in
  let distance := Controls.distance c * (1 + delta * 0.08) in
  let distance := Math_max 50 (Math_min 12000 distance) in
  set_controls
    (Controls.mk (Controls.isDragging c) (Controls.isRightDragging c)
       (Controls.lastX c) (Controls.lastY c) (Controls.yaw c)
       (Controls.pitch c) distance (Controls.target c)) s.

(** [setInfo].  The panel of a planet is written from a template that
    calls [date.toISOString()], which throws a RangeError on an invalid
    Date: the call then ends before the assignment to [el.innerHTML]. *)
Definition setInfo (p : option Planet.t) (helioAU : Vector3.t) (date : AstroTime)
    (s : State) : Outcome :=
  match p with
  | None => Returned (set_info InfoHint s)
  | Some p =>
      if date_valid date then Returned (set_info (InfoPlanet p helioAU date) s)
      else Thrown s
  end.

(** [click].  [hit] is [hits[0].object.userData] of the ray cast against
    the planet meshes, when it hits one. *)
Definition click (hit : option Planet.t) (s : State) : State :=
  match hit with
  | Some p => set_selected (Some p) s
  | None => set_info InfoHint (set_selected None s)
  end.

(** The [input] handler of the time-scale slider; [value] is
    [Number(timeScaleInput.value)]. *)
Definition timeScaleInput_input (value : Q) (s : State) : State :=
  let timeScale := value in
  let timeScale := if Qeq_bool timeScale 0 then 1 else timeScale in
  set_timeScale timeScale s.

(** The [click] handler of the pause button. *)
Definition btnPause_click (s : State) : State :=
  set_paused (negb (paused s)) s.

(** The [click] handler of the trails button. *)
Definition btnTrails_click (s : State) : State :=
  let showTrails := negb (showTrails s) in
  set_trails (setVisible showTrails <$> trails s) (set_showTrails showTrails s).

(** [resetTrails] *)
Definition resetTrails (s : State) : State :=
  set_trails (resetTrail <$> trails s) s.

(** ** Functions that call the libraries *)

Section Pipeline.

(** astronomy-engine's [HelioVector]; [None] when it throws. *)
Variable HelioVector : Body -> AstroTime -> option Vector3.t.
Variables Math_cos Math_sin : Q -> Q.

(** [updateCamera] *)
Definition updateCamera (s : State) : State :=
  let c := controls s in
  let target := Controls.target c in
  let distance := Controls.distance c in
  let pitch := Controls.pitch c in
  let yaw := Controls.yaw c in
  let x := Vector3.x target + distance * Math_cos pitch * Math_cos yaw in
  let z := Vector3.z target + distance * Math_cos pitch * Math_sin yaw in
  let y := Vector3.y target + distance * Math_sin pitch in
  set_camera (Camera.mk (Vector3.mk x y z) target) s.

(** [computeHelioPos]: the axes are swapped; it throws when the library
    does. *)
Definition computeHelioPos (body : Body) (time : AstroTime) : option Vector3.t :=
  match HelioVector body time with
  | Some v => Some (Vector3.mk (Vector3.x v) (Vector3.z v) (Vector3.y v))
  | None => None
  end.

(** The points of one orbit line of [buildOrbits], from sample [i] on. *)
Fixpoint buildOrbits_pts (body : Body) (time : AstroTime) (samples : nat)
    (i n : nat) : option (list Vector3.t) :=
  match n with
  | O => Some []
  | S n' =>
      let dtDays := (inject_Z (Z.of_nat i) / inject_Z (Z.of_nat samples)) * 365.25 in
      let t := MakeTime (ut time + dtDays) in
      match computeHelioPos body t with
      | None => None
      | Some au =>
          match buildOrbits_pts body time samples (S i) n' with
          | None => None
          | Some pts => Some (multiplyScalar au AU_TO_UNITS :: pts)
          end
      end
  end.

Fixpoint buildOrbits_loop (ps : list Planet.t) (time : AstroTime) (s : State)
    : Outcome :=
  match ps with
  | [] => Returned s
  | p :: ps' =>
      let samples := 360%nat in
      match buildOrbits_pts (Planet.body p) time samples 0 samples with
      | None => Thrown s
      | Some pts =>
          buildOrbits_loop ps' time
            (set_orbitLines
               (orbitLines s ++ [((Planet.key p +:+ "-orbit")%string, pts)]) s)
      end
  end.

(** [buildOrbits] *)
Definition buildOrbits (time : AstroTime) (s : State) : Outcome :=
  buildOrbits_loop bodies time (set_orbitLines [] s).

(** The [click] handler of the Now button; [date] is [new Date()] in
    days since J2000. *)
Definition btnNow_click (date : Q) (s : State) : Outcome :=
  let s := set_simTime (MakeTime date) s in
  let s := resetTrails s in
  buildOrbits (simTime s) s.

(** The loop of [tick] over the catalog, from index [i] on. *)
Fixpoint tick_bodies (ps : list Planet.t) (i : nat)
    (selectedAU : option Vector3.t) (s : State)
    : option Vector3.t * Outcome :=
  match ps with
  | [] => (selectedAU, Returned s)
  | p :: ps' =>
      match computeHelioPos (Planet.body p) (simTime s) with
      | None => (selectedAU, Thrown s)
      | Some au =>
          let pos := multiplyScalar au AU_TO_UNITS in
          match planetMeshes s !! i with
          | None => (selectedAU, Thrown s)
          | Some _ =>
              let s := set_planetMeshes (<[i := pos]> (planetMeshes s)) s in
              (* trails *)
              let after_trail :=
                if showTrails s then
                  match trails s !! Planet.key p with
                  | None => Thrown s
                  | Some tr =>
                      Returned
                        (set_trails
                           (<[Planet.key p := tick_trail pos tr]> (trails s)) s)
                  end
                else Returned s in
              match after_trail with
              | Thrown s => (selectedAU, Thrown s)
              | Returned s =>
                  let selectedAU :=
                    match selected s with
                    | Some sel =>
                        if String.eqb (Planet.key sel) (Planet.key p)
                        then Some au else selectedAU
                    | None => selectedAU
                    end in
                  tick_bodies ps' (S i) selectedAU s
              end
          end
      end
  end.

(** The clock part of [tick]: [dt], [last] and the new [simTime]. *)
Definition tick_clock (now : Q) (s : State) : State :=
  let dt := Math_min 0.05 ((now - last s) / 1000) in
  let s := set_last now s in
  if negb (paused s) then
    set_simTime (MakeTime (ut (simTime s) + (dt * timeScale s) / 86400)) s
  else s.

(** [tick] *)
Definition tick (now : Q) (s : State) : Outcome :=
  let s := tick_clock now s in
  (* update planet positions *)
  match tick_bodies bodies 0 None s with
  | (_, Thrown s) => Thrown s
  | (selectedAU, Returned s) =>
      (* camera *)
      let s := updateCamera s in
      (* info *)
      let after_info :=
        match selected s, selectedAU with
        | Some sel, Some au => setInfo (Some sel) au (simTime s) s
        | _, _ => Returned s
        end in
      match after_info with
      | Thrown s => Thrown s
      | Returned s =>
          let s := set_rendered (S (rendered s)) s in
          Returned (set_framePending true s)
      end
  end.

(** The module's top level: the state the declarations build, then
    [updateCamera()], [buildOrbits(simTime)] and the first
    [requestAnimationFrame(tick)].  [date] is [new Date()] in days since
    J2000 and [now] is [performance.now()]. *)
Definition declared (date now : Q) : State :=
  mkState
    (Controls.mk false false 0 0 0.6 0.35 900 (Vector3.mk 0 0 0))
    (Camera.mk (Vector3.mk 0 350 900) (Vector3.mk 0 0 0))
    ((fun _ => Vector3.mk 0 0 0) <$> bodies)
    []
    (foldl (fun m p => <[Planet.key p := newTrail]> m) ∅ bodies)
    None InfoHint (MakeTime date) false 600 true now 0 false.

Definition main (date now : Q) : Outcome :=
  let s := updateCamera (declared date now) in
  match buildOrbits (simTime s) s with
  | Thrown s => Thrown s
  | Returned s => Returned (set_framePending true s)
  end.

(** ** Events *)

Inductive Event : Type :=
| Pointerdown (button : Z) (clientX clientY : Q)
| Pointerup
| Pointermove (clientX clientY : Q) (right : Vector3.t)
| Wheel (deltaY : Q)
| Click (hit : option Planet.t)
| TimeScaleInput (value : Q)
| BtnNow (date : Q)
| BtnPause
| BtnTrails
| AnimationFrame (now : Q).

(** One event: its handler runs to the end.  An animation frame runs
    [tick] only if one was requested, and uses the request up. *)
Definition handle (e : Event) (s : State) : Outcome :=
  match e with
  | Pointerdown button clientX clientY => Returned (pointerdown button clientX clientY s)
  | Pointerup => Returned (pointerup s)
  | Pointermove clientX clientY r => Returned (pointermove clientX clientY r s)
  | Wheel deltaY => Returned (wheel deltaY s)
  | Click hit => Returned (click hit s)
  | TimeScaleInput value => Returned (timeScaleInput_input value s)
  | BtnNow date => btnNow_click date s
  | BtnPause => Returned (btnPause_click s)
  | BtnTrails => Returned (btnTrails_click s)
  | AnimationFrame now =>
      if framePending s then tick now (set_framePending false s)
      else Returned s
  end.

(** The store after a sequence of events; an exception ends its handler
    only. *)
Definition run (es : list Event) (s : State) : State :=
  foldl (fun s e => state_of (handle e s)) s es.

End Pipeline.

(** ** Frames in a row *)

Section Frames.

Variable HelioVector : Body -> AstroTime -> option Vector3.t.
Variables Math_cos Math_sin : Q -> Q.

(** The animation loop: every [tick] requests the next one, called with
    the next time stamp of [nows]; an exception ends the loop. *)
Fixpoint frames (nows : list Q) (s : State) : Outcome :=
  match nows with
  | [] => Returned s
  | now :: nows' =>
      match tick HelioVector Math_cos Math_sin now s with
      | Returned s' => frames nows' s'
      | Thrown s' => Thrown s'
      end
  end.

End Frames.

(** ** Notions used to state the properties *)

(** [clamp(v, lo, hi)] of the specification. *)
Definition spec_clamp (v lo hi : Q) : Q := Qmax lo (Qmin hi v).

(** The flat array of a list of points. *)
Definition flat (vs : list Vector3.t) : list Q :=
  vs ≫= (λ v, [Vector3.x v; Vector3.y v; Vector3.z v]).

(** The scene position [tick] gives a planet whose [HelioVector] is [v]. *)
Definition scene_pos (v : Vector3.t) : Vector3.t :=
  multiplyScalar (Vector3.mk (Vector3.x v) (Vector3.z v) (Vector3.y v)) AU_TO_UNITS.

(** A trail entry as the start-up loop and the handlers keep it: a
    positive capacity, an array of three numbers per point, and a draw
    range of the first [min(maxPts, count)] points. *)
Definition trail_ok (tr : Trail.t) : bool :=
  (0 <? Trail.maxPts tr)%nat
  && (length (Line.array (Trail.line tr)) =? Trail.maxPts tr * 3)%nat
  && (fst (Line.drawRange (Trail.line tr)) =? 0)%nat
  && (snd (Line.drawRange (Trail.line tr))
      =? Nat.min (Trail.maxPts tr) (Trail.count tr))%nat.

(** Every planet of the catalog has its mesh and its trail entry. *)
Definition scene_ok (s : State) : bool :=
  (length (planetMeshes s) =? length bodies)%nat
  && forallb
       (λ p, match trails s !! Planet.key p with
             | Some tr => trail_ok tr
             | None => false
             end) bodies.

(** The ranges of the orbit controls. *)
Definition controls_ok (c : Controls.t) : Prop :=
  (-1.25 <= Controls.pitch c <= 1.25) ∧ (50 <= Controls.distance c <= 12000).

(** Two stores that differ at most in the planet meshes and the trails. *)
Definition same_but_scene (s s' : State) : Prop :=
  controls s' = controls s ∧ camera s' = camera s
  ∧ orbitLines s' = orbitLines s ∧ selected s' = selected s
  ∧ info s' = info s ∧ simTime s' = simTime s ∧ paused s' = paused s
  ∧ timeScale s' = timeScale s ∧ showTrails s' = showTrails s
  ∧ last s' = last s ∧ rendered s' = rendered s
  ∧ framePending s' = framePending s.

(** A trail whose array holds the points [vs]. *)
Definition holds (tr : Trail.t) (vs : list Vector3.t) : Prop :=
  Line.array (Trail.line tr) = flat vs ∧ Trail.maxPts tr = length vs
  ∧ (0 < length vs)%nat.

(** Pushing a list of positions, first to last. *)
Definition pushes (ps : list Vector3.t) (tr : Trail.t) : Trail.t :=
  foldl (λ tr pos, tick_trail pos tr) tr ps.

(** What the loop of [tick] may change between two stores: meshes are
    overwritten in place, trails receive pushes, and only while
    [showTrails] is set. *)
Definition scene_step (s s' : State) : Prop :=
  same_but_scene s s'
  ∧ length (planetMeshes s') = length (planetMeshes s)
  ∧ (∀ k, ∃ poss, trails s' !! k = pushes poss <$> trails s !! k)
  ∧ (showTrails s = false → trails s' = trails s).

(** Bounds on the distance after repeated wheel steps: from 50 upwards
    by the factor 1.08 under the cap, from 12000 downwards by the factor
    0.92 over the floor. *)
Definition zoom_floor (n : nat) : Q :=
  Nat.iter n (λ d, Qmin 12000 (d * (1 + 1 * 0.08))) 50.
Definition zoom_ceiling (n : nat) : Q :=
  Nat.iter n (λ d, Qmax 50 (d * (1 + -1 * 0.08))) 12000.



(** ** Stub libraries for the examples *)

(** An ephemeris whose positions depend on the time only. *)
Definition stubHelio (b : Body) (t : AstroTime) : option Vector3.t :=
  Some (Vector3.mk (ut t) 1 2).

(** An ephemeris that has no position of Venus at times strictly between
    day 0 and day 1/2. *)
Definition gapHelio (b : Body) (t : AstroTime) : option Vector3.t :=
  match b with
  | Venus =>
      if Qlt_le_dec 0 (ut t) then
        if Qlt_le_dec (ut t) (1 # 2) then None else Some (Vector3.mk 1 2 3)
      else Some (Vector3.mk 1 2 3)
  | _ => Some (Vector3.mk 1 2 3)
  end.

(** Polynomials standing for [Math.cos] and [Math.sin]. *)
Definition stubCos (a : Q) : Q := 1 - a * a / 2.
Definition stubSin (a : Q) : Q := a - a * a * a / 6.

(** The module started at day 0 with [performance.now()] at 1000 ms, on
    each of the two ephemerides. *)
Definition started : State := state_of (main stubHelio stubCos stubSin 0 1000).
Definition started_gap : State := state_of (main gapHelio stubCos stubSin 0 1000).

(** Time stamps 50 ms apart, [n] of them, after [start]. *)
Definition stamps (start : Q) (n : nat) : list Q :=
  (λ i, start + 50 * inject_Z (Z.of_nat i)) <$> seq 1 n.

(** The catalog entries of Venus and of the Earth. *)
Definition venus : Planet.t :=
  Planet.mk "Venus" Venus 0xe6c48c 6.2 "Thick atmosphere, hottest surface.".
Definition earth : Planet.t :=
  Planet.mk "Earth" Earth 0x4fa3ff 6.4 "Home. 1 AU baseline.".

(** Distinct positions, numbered from 1. *)
Definition numbered (n : nat) : list Vector3.t :=
  (λ i, Vector3.mk (inject_Z (Z.of_nat i)) 0 0) <$> seq 1 n.

(** ** Notions used by the further properties *)

(** The axes of an ephemeris vector as [computeHelioPos] returns them. *)
Definition swap_axes (v : Vector3.t) : Vector3.t :=
  Vector3.mk (Vector3.x v) (Vector3.z v) (Vector3.y v).

(** The time of sample [i] of an orbit line built at [time]. *)
Definition orbit_sample (time : AstroTime) (i : nat) : AstroTime :=
  MakeTime (ut time
            + (inject_Z (Z.of_nat i) / inject_Z (Z.of_nat 360)) * 365.25)%Q.

(** The square of the distance between two points. *)
Definition dist2 (a b : Vector3.t) : Q :=
  ((Vector3.x a - Vector3.x b) * (Vector3.x a - Vector3.x b)
   + (Vector3.y a - Vector3.y b) * (Vector3.y a - Vector3.y b)
   + (Vector3.z a - Vector3.z b) * (Vector3.z a - Vector3.z b))%Q.

(** Two points with equal coordinates. *)
Definition same_point (a b : Vector3.t) : Prop :=
  (Vector3.x a == Vector3.x b ∧ Vector3.y a == Vector3.y b
   ∧ Vector3.z a == Vector3.z b)%Q.

(** A run of [pointermove] events through the given client positions,
    the camera's right vector being [r] throughout. *)
Definition moves (r : Vector3.t) (path : list (Q * Q)) (s : State) : State :=
  foldl (λ s xy, pointermove (fst xy) (snd xy) r s) s path.

(** The last position of a path that starts at [(x0, y0)]. *)
Definition path_end (x0 y0 : Q) (path : list (Q * Q)) : Q * Q :=
  List.last path (x0, y0).

(** Time stamps that follow [last] and one another by at most 50 ms. *)
Fixpoint paced (last : Q) (nows : list Q) : Prop :=
  match nows with
  | [] => True
  | now :: nows' => (now - last <= 50)%Q ∧ paced now nows'
  end.

(** A trail entry of the size the start-up loop gives it, whose line is
    shown or hidden as [b] says. *)
Definition trail_sized (b : bool) (tr : Trail.t) : bool :=
  (Trail.maxPts tr =? 220)%nat
  && (length (Line.array (Trail.line tr)) =? 660)%nat
  && (snd (Line.drawRange (Trail.line tr)) <=? 220)%nat
  && Bool.eqb (Line.visible (Trail.line tr)) b.

(** The trails map has an entry of that size for each planet of the
    catalog, and no other entry. *)
Definition trails_sized (s : State) : Prop :=
  ∀ k, match trails s !! k with
       | Some tr => k ∈ Planet.key <$> bodies ∧ trail_sized (showTrails s) tr = true
       | None => k ∉ Planet.key <$> bodies
       end.

(** Rational functions standing for [Math.cos] and [Math.sin], with
    [cos^2 + sin^2 = 1]. *)
Definition ratCos (a : Q) : Q := ((1 - a * a) / (1 + a * a))%Q.
Definition ratSin (a : Q) : Q := ((2 * a) / (1 + a * a))%Q.

(** * Facts *)

(** ** Clamps *)

Lemma Math_clamp_range (lo hi v : Q) :
  lo <= hi → lo <= Math_max lo (Math_min hi v) <= hi.
Proof.
  intros Hle. unfold Math_max, Math_min.
  destruct (Q.max_spec lo (Qmin hi v)) as [[? ->]|[? ->]];
    destruct (Q.min_spec hi v) as [[? E]|[? E]]; rewrite ?E in *; lra.
Qed.

(** At or above the upper bound the clamp returns the bound itself. *)
Lemma Math_clamp_high (lo hi v : Q) :
  lo < hi → hi <= v → Math_max lo (Math_min hi v) = hi.
Proof.
  intros Hlt Hle. unfold Math_max, Math_min, Qmax, Qmin, GenericMinMax.gmax,
    GenericMinMax.gmin.
  destruct (Qcompare_spec hi v) as [E|E|E]; try lra;
    destruct (Qcompare_spec lo hi) as [E'|E'|E']; try lra; done.
Qed.

(** At or below the lower bound the clamp returns the bound itself. *)
Lemma Math_clamp_low (lo hi v : Q) :
  lo < hi → v <= lo → Math_max lo (Math_min hi v) = lo.
Proof.
  intros Hlt Hle. unfold Math_max, Math_min, Qmax, Qmin, GenericMinMax.gmax,
    GenericMinMax.gmin.
  destruct (Qcompare_spec hi v) as [E|E|E]; try lra;
    destruct (Qcompare_spec lo v) as [E'|E'|E']; try lra; done.
Qed.

Lemma Qdiv_1000 (a : Q) : a / 1000 == a * (1 # 1000).
Proof. reflexivity. Qed.

Lemma Qdiv_86400 (a : Q) : a / 86400 == a * (1 # 86400).
Proof. reflexivity. Qed.

Lemma Math_sign_pos (a : Q) : 0 < a → Math_sign a = 1.
Proof.
  destruct a as [n d]. unfold Qlt, Math_sign. simpl. intros H.
  replace (Z.sgn n) with 1%Z by lia. done.
Qed.

Lemma Math_sign_neg (a : Q) : a < 0 → Math_sign a = -1.
Proof.
  destruct a as [n d]. unfold Qlt, Math_sign. simpl. intros H.
  replace (Z.sgn n) with (-1)%Z by lia. done.
Qed.

(** ** Flat arrays and their vertices *)

Local Open Scope nat_scope.

Lemma flat_cons (a b c : Q) (vs : list Vector3.t) :
  flat (Vector3.mk a b c :: vs) = a :: b :: c :: flat vs.
Proof. done. Qed.

Lemma flat_length (vs : list Vector3.t) : length (flat vs) = length vs * 3.
Proof.
  induction vs as [|[a b c] vs IH]; [done|].
  rewrite flat_cons. simpl. lia.
Qed.

Lemma flat_exists (n : nat) (arr : list Q) :
  length arr = n * 3 → ∃ vs, arr = flat vs ∧ length vs = n.
Proof.
  revert arr. induction n as [|n IH]; intros arr Hlen.
  - exists []. destruct arr; [done|discriminate].
  - destruct arr as [|a [|b [|c arr]]]; simpl in Hlen; try lia.
    destruct (IH arr) as (vs & -> & Hvs); [lia|].
    exists (Vector3.mk a b c :: vs). split; [done|]. simpl. by rewrite Hvs.
Qed.

Lemma index_S (i k : nat) : S i * 3 + k = S (S (S (i * 3 + k))).
Proof. lia. Qed.

Lemma vertex_flat (vs : list Vector3.t) (i : nat) : vertex (flat vs) i = vs !! i.
Proof.
  revert i. induction vs as [|[a b c] vs IH]; intros i.
  - unfold vertex. by rewrite !lookup_nil.
  - destruct i as [|i]; [done|].
    change ((Vector3.mk a b c :: vs) !! S i) with (vs !! i).
    rewrite <- (IH i). unfold vertex. by rewrite flat_cons, !index_S.
Qed.

Lemma flat_insert (vs : list Vector3.t) (i : nat) (p : Vector3.t) :
  <[i * 3 + 2 := Vector3.z p]>
    (<[i * 3 + 1 := Vector3.y p]> (<[i * 3 + 0 := Vector3.x p]> (flat vs)))
  = flat (<[i := p]> vs).
Proof.
  revert i. induction vs as [|[a b c] vs IH]; intros i; [done|].
  destruct i as [|i]; [done|].
  rewrite !index_S, flat_cons. simpl. by rewrite <- IH.
Qed.

Lemma omap_lookup_seq {A} (f : nat → option A) (l : list A) (n : nat) :
  (∀ i, f i = l !! i) → omap f (seq 0 n) = take n l.
Proof.
  intros Hf. induction n as [|n IH]; [done|].
  rewrite seq_S, omap_app, IH. simpl. rewrite Hf.
  destruct (l !! n) as [a|] eqn:E.
  - by rewrite (take_S_r _ _ a).
  - apply lookup_ge_None in E. rewrite !take_ge by lia. by rewrite app_nil_r.
Qed.

Lemma drawn_flat (vs : list Vector3.t) (n : nat) (b v : bool) :
  drawn (Line.mk (flat vs) (0, n) b v) = take n vs.
Proof. apply omap_lookup_seq, vertex_flat. Qed.

(** ** The ring of points behind a trail *)

(** Writing at [c mod C] and reading from [(c + 1) mod C] round the ring
    drops the oldest point and appends the new one. *)
Lemma rotate_push {A} (vs : list A) (c : nat) (p : A) :
  0 < length vs →
  rotate (S c) (<[c mod length vs := p]> vs) = drop 1 (rotate c vs) ++ [p].
Proof.
  intros Hpos. unfold rotate. rewrite length_insert.
  set (C := length vs) in *.
  assert (Hk : c mod C < C) by (apply Nat.mod_upper_bound; lia).
  assert (HS : S c mod C = if decide (S (c mod C) = C) then 0 else S (c mod C)).
  { rewrite <- Nat.add_1_r, <- Nat.Div0.add_mod_idemp_l, Nat.add_1_r.
    case_decide as E; [rewrite E; apply Nat.Div0.mod_same|apply Nat.mod_small; lia]. }
  rewrite HS. clear HS. set (k := c mod C) in *.
  destruct (vs !! k) as [a|] eqn:Ha; [|apply lookup_ge_None in Ha; lia].
  rewrite (drop_S vs a k Ha). simpl. rewrite drop_0.
  rewrite insert_take_drop by done.
  assert (Hlen : length (take k vs) = k) by (rewrite length_take; lia).
  case_decide as E.
  - simpl. rewrite drop_0, (drop_ge vs (S k)) by lia. by rewrite !app_nil_r.
  - rewrite drop_app_ge, take_app_ge, Hlen by lia.
    replace (S k - k) with 1 by lia. simpl. rewrite drop_0, take_0.
    by rewrite <- app_assoc.
Qed.

Lemma trail_ok_holds (tr : Trail.t) :
  trail_ok tr = true → ∃ vs, holds tr vs.
Proof.
  unfold trail_ok. rewrite !andb_true_iff, Nat.ltb_lt, !Nat.eqb_eq.
  intros [[[Hpos Hlen] _] _].
  destruct (flat_exists _ _ Hlen) as (vs & E & L).
  exists vs. unfold holds. rewrite E, L. split_and!; [done|done|lia].
Qed.

Lemma tick_trail_holds (tr : Trail.t) (vs : list Vector3.t) (pos : Vector3.t) :
  holds tr vs →
  tick_trail pos tr
  = Trail.mk
      (Line.mk (flat (<[Trail.count tr mod length vs := pos]> vs))
         (0, Nat.min (length vs) (S (Trail.count tr))) true
         (Line.visible (Trail.line tr)))
      (length vs) (S (Trail.count tr)).
Proof.
  intros (Harr & Hmax & _). unfold tick_trail.
  by rewrite Harr, Hmax, flat_insert.
Qed.

Lemma tick_trail_holds' (tr : Trail.t) (vs : list Vector3.t) (pos : Vector3.t) :
  holds tr vs →
  holds (tick_trail pos tr) (<[Trail.count tr mod length vs := pos]> vs).
Proof.
  intros H. rewrite (tick_trail_holds _ _ _ H).
  destruct H as (_ & _ & Hpos). unfold holds. simpl.
  by rewrite length_insert.
Qed.

Lemma tick_trail_ok (tr : Trail.t) (pos : Vector3.t) :
  trail_ok tr = true → trail_ok (tick_trail pos tr) = true.
Proof.
  intros Hok. destruct (trail_ok_holds _ Hok) as (vs & H).
  rewrite (tick_trail_holds _ _ _ H). destruct H as (_ & _ & Hpos).
  unfold trail_ok. simpl. rewrite flat_length, length_insert.
  rewrite !andb_true_iff, Nat.ltb_lt, !Nat.eqb_eq. done.
Qed.

Lemma pushes_app (ps qs : list Vector3.t) (tr : Trail.t) :
  pushes (ps ++ qs) tr = pushes qs (pushes ps tr).
Proof. apply foldl_app. Qed.

Lemma pushes_ok (ps : list Vector3.t) (tr : Trail.t) :
  trail_ok tr = true → trail_ok (pushes ps tr) = true.
Proof.
  revert tr. induction ps as [|p ps IH]; intros tr Hok; [done|].
  simpl. by apply IH, tick_trail_ok.
Qed.

(** After the pushes [ps], reading the ring from the write position gives
    the old reading followed by [ps], less its first [length ps] points. *)
Lemma pushes_rotate (ps : list Vector3.t) (tr : Trail.t) (vs : list Vector3.t) :
  holds tr vs →
  ∃ vs', holds (pushes ps tr) vs' ∧ length vs' = length vs
    ∧ Trail.count (pushes ps tr) = Trail.count tr + length ps
    ∧ Trail.maxPts (pushes ps tr) = Trail.maxPts tr
    ∧ Line.visible (Trail.line (pushes ps tr)) = Line.visible (Trail.line tr)
    ∧ rotate (Trail.count (pushes ps tr)) vs'
      = drop (length ps) (rotate (Trail.count tr) vs ++ ps).
Proof.
  revert tr vs. induction ps as [|p ps IH]; intros tr vs H.
  - exists vs. simpl. rewrite Nat.add_0_r, app_nil_r. done.
  - pose proof (tick_trail_holds' _ _ p H) as H'.
    destruct (IH _ _ H') as (vs' & Hh & Hl & Hc & Hm & Hv & Hr).
    exists vs'. rewrite length_insert in Hl.
    change (pushes (p :: ps) tr) with (pushes ps (tick_trail p tr)).
    change (Trail.count (tick_trail p tr)) with (S (Trail.count tr)) in Hc, Hr.
    destruct H as (_ & Hmax & Hpos).
    split_and!; [done|done|simpl; lia|done|done|].
    rewrite Hr, rotate_push by done.
    assert (length (rotate (Trail.count tr) vs) = length vs) as Hlen
      by apply length_rotate.
    destruct (rotate (Trail.count tr) vs) as [|a l]; [simpl in Hlen; lia|].
    simpl. rewrite drop_0. by rewrite <- app_assoc.
Qed.

(** ** What a step of the loop of [tick] changes *)

Lemma same_but_scene_refl (s : State) : same_but_scene s s.
Proof. by repeat split. Qed.

Lemma same_but_scene_trans (s1 s2 s3 : State) :
  same_but_scene s1 s2 → same_but_scene s2 s3 → same_but_scene s1 s3.
Proof. unfold same_but_scene. intros ? ?. destruct_and!. split_and!; congruence. Qed.

Lemma scene_step_refl (s : State) : scene_step s s.
Proof.
  split_and!; [apply same_but_scene_refl|done| |done].
  intros k. exists []. by destruct (trails s !! k).
Qed.

Lemma scene_step_trans (s1 s2 s3 : State) :
  scene_step s1 s2 → scene_step s2 s3 → scene_step s1 s3.
Proof.
  intros (F1 & L1 & T1 & H1) (F2 & L2 & T2 & H2).
  split_and!; [by eapply same_but_scene_trans|congruence| |].
  - intros k. destruct (T1 k) as [ps E1], (T2 k) as [qs E2].
    exists (ps ++ qs). rewrite E2, E1.
    destruct (trails s1 !! k); simpl; [|done]. by rewrite pushes_app.
  - intros Hs. rewrite H2, H1; [done..|].
    destruct F1 as (_&_&_&_&_&_&_&_&E&_). congruence.
Qed.

Lemma scene_step_mesh (s : State) (i : nat) (pos : Vector3.t) :
  scene_step s (set_planetMeshes (<[i := pos]> (planetMeshes s)) s).
Proof.
  split_and!; [by repeat split|apply length_insert| |done].
  intros k. exists []. simpl. by destruct (trails s !! k).
Qed.

Lemma scene_step_trail (s : State) (k : string) (tr : Trail.t) (pos : Vector3.t) :
  showTrails s = true → trails s !! k = Some tr →
  scene_step s (set_trails (<[k := tick_trail pos tr]> (trails s)) s).
Proof.
  intros Hshow Htr. split_and!; [by repeat split|done| |congruence].
  intros k'. simpl. destruct (decide (k = k')) as [<-|Hne].
  - exists [pos]. by rewrite lookup_insert_eq, Htr.
  - exists []. rewrite lookup_insert_ne by done. by destruct (trails s !! k').
Qed.

Lemma trail_ok_reset (tr : Trail.t) : trail_ok tr = true → trail_ok (resetTrail tr) = true.
Proof.
  unfold trail_ok, resetTrail.
  cbn [Trail.line Trail.maxPts Trail.count Line.array Line.drawRange fst snd].
  rewrite Nat.min_0_r, !andb_true_iff, Nat.ltb_lt, !Nat.eqb_eq. tauto.
Qed.

Lemma trail_ok_setVisible (b : bool) (tr : Trail.t) :
  trail_ok tr = true → trail_ok (setVisible b tr) = true.
Proof. done. Qed.

Lemma scene_ok_spec (s : State) :
  scene_ok s = true ↔
  length (planetMeshes s) = length bodies
  ∧ ∀ p, p ∈ bodies → ∃ tr, trails s !! Planet.key p = Some tr ∧ trail_ok tr = true.
Proof.
  unfold scene_ok. rewrite andb_true_iff, Nat.eqb_eq, forallb_forall.
  apply and_iff_compat_l. split; intros H p Hp.
  - apply list_elem_of_In, H in Hp. destruct (trails s !! Planet.key p); [eauto|done].
  - apply list_elem_of_In, H in Hp. by destruct Hp as (tr & -> & ?).
Qed.

Local Open Scope Q_scope.

Section PipelineFacts.

Variable HelioVector : Body -> AstroTime -> option Vector3.t.
Variables Math_cos Math_sin : Q -> Q.

Lemma computeHelioPos_Some (b : Body) (t : AstroTime) (v : Vector3.t) :
  HelioVector b t = Some v →
  computeHelioPos HelioVector b t
  = Some (Vector3.mk (Vector3.x v) (Vector3.z v) (Vector3.y v)).
Proof. unfold computeHelioPos. by intros ->. Qed.

Lemma computeHelioPos_None (b : Body) (t : AstroTime) :
  HelioVector b t = None → computeHelioPos HelioVector b t = None.
Proof. unfold computeHelioPos. by intros ->. Qed.

(** Whatever the loop does, and however it ends, it is a scene step. *)
Lemma tick_bodies_step (ps : list Planet.t) :
  ∀ (i : nat) (sel : option Vector3.t) (s : State),
    scene_step s (state_of (tick_bodies HelioVector ps i sel s).2).
Proof.
  induction ps as [|p ps IH]; intros i sel s; simpl.
  - apply scene_step_refl.
  - destruct (computeHelioPos HelioVector (Planet.body p) (simTime s)) as [au|];
      [|apply scene_step_refl].
    destruct (planetMeshes s !! i); [|apply scene_step_refl].
    set (pos := multiplyScalar au AU_TO_UNITS).
    pose proof (scene_step_mesh s i pos) as Hmesh.
    set (s1 := set_planetMeshes _ s) in *.
    change (showTrails s1) with (showTrails s).
    destruct (showTrails s) eqn:Hshow.
    + destruct (trails s !! Planet.key p) as [tr|] eqn:Htr; [|exact Hmesh].
      eapply scene_step_trans; [|apply IH].
      eapply scene_step_trans; [exact Hmesh|].
      exact (scene_step_trail s1 _ tr pos Hshow Htr).
    + eapply scene_step_trans; [exact Hmesh|apply IH].
Qed.

Lemma tick_bodies_app (ps qs : list Planet.t) :
  ∀ (i : nat) (sel : option Vector3.t) (s : State),
    tick_bodies HelioVector (ps ++ qs) i sel s
    = match tick_bodies HelioVector ps i sel s with
      | (sel', Returned s') =>
          tick_bodies HelioVector qs (i + length ps)%nat sel' s'
      | (sel', Thrown s') => (sel', Thrown s')
      end.
Proof.
  induction ps as [|p ps IH]; intros i sel s; simpl.
  - by rewrite Nat.add_0_r.
  - destruct (computeHelioPos HelioVector (Planet.body p) (simTime s)); [|done].
    destruct (planetMeshes s !! i); [|done].
    replace (i + S (length ps))%nat with (S i + length ps)%nat by lia.
    destruct (showTrails _); [|apply IH].
    destruct (trails _ !! Planet.key p); [apply IH|done].
Qed.

End PipelineFacts.

(** ** The loop of [tick], body by body *)

Section Loop.

Variable HelioVector : Body -> AstroTime -> option Vector3.t.

Local Open Scope nat_scope.

(** When the ephemeris answers for every body of [ps] and each has its
    mesh and trail, the loop returns: each mesh holds the new position
    and, with trails shown, each trail got one push of it. *)
Lemma tick_bodies_returns (ps : list Planet.t) :
  ∀ (i : nat) (sel : option Vector3.t) (s : State),
    NoDup (Planet.key <$> ps) →
    (∀ p, p ∈ ps → is_Some (HelioVector (Planet.body p) (simTime s))) →
    i + length ps ≤ length (planetMeshes s) →
    (showTrails s = true →
     ∀ p, p ∈ ps → is_Some (trails s !! Planet.key p)) →
    ∃ sel' s',
      tick_bodies HelioVector ps i sel s = (sel', Returned s')
      ∧ (∀ j p v, ps !! j = Some p →
           HelioVector (Planet.body p) (simTime s) = Some v →
           planetMeshes s' !! (i + j) = Some (scene_pos v)
           ∧ (showTrails s = true →
              trails s' !! Planet.key p
              = tick_trail (scene_pos v) <$> trails s !! Planet.key p))
      ∧ (∀ j, j < i → planetMeshes s' !! j = planetMeshes s !! j)
      ∧ (∀ k, k ∉ Planet.key <$> ps → trails s' !! k = trails s !! k).
Proof.
  induction ps as [|p ps IH]; intros i sel s Hnd Hhelio Hlen Htrails.
  - exists sel, s. split_and!; [done| |done|done].
    intros j p v Hj. by rewrite lookup_nil in Hj.
  - apply NoDup_cons in Hnd as [Hnotin Hnd].
    destruct (Hhelio p) as [v Hv]; [left|].
    simpl in Hlen.
    destruct (lookup_lt_is_Some_2 (planetMeshes s) i) as [m Hm]; [lia|].
    cbn [tick_bodies]. rewrite (computeHelioPos_Some _ _ _ _ Hv), Hm.
    fold (scene_pos v).
    set (s1 := set_planetMeshes (<[i := scene_pos v]> (planetMeshes s)) s).
    change (showTrails s1) with (showTrails s).
    change (trails s1) with (trails s).
    assert (Hstep : ∃ s2, (if showTrails s
               then match trails s !! Planet.key p with
                    | Some tr => Returned (set_trails
                        (<[Planet.key p := tick_trail (scene_pos v) tr]> (trails s)) s1)
                    | None => Thrown s1
                    end
               else Returned s1) = Returned s2
             ∧ planetMeshes s2 = <[i := scene_pos v]> (planetMeshes s)
             ∧ simTime s2 = simTime s ∧ showTrails s2 = showTrails s
             ∧ (showTrails s = true → trails s2 !! Planet.key p
                  = tick_trail (scene_pos v) <$> trails s !! Planet.key p)
             ∧ (∀ k, k ≠ Planet.key p → trails s2 !! k = trails s !! k)).
    { destruct (showTrails s) eqn:Hshow.
      - destruct (Htrails eq_refl p) as [tr Htr]; [left|]. rewrite Htr.
        eexists. split; [done|]. cbn. split_and!; try done.
        + intros _. by rewrite lookup_insert_eq.
        + intros k Hk. by rewrite lookup_insert_ne.
      - exists s1. by split_and!. }
    destruct Hstep as (s2 & -> & Hmesh2 & Htime2 & Hshow2 & Hown & Hother).
    destruct (IH (S i)
                match selected s2 with
                | Some sel0 =>
                    if (Planet.key sel0 =? Planet.key p)%string
                    then Some (Vector3.mk (Vector3.x v) (Vector3.z v) (Vector3.y v))
                    else sel
                | None => sel
                end s2 Hnd) as (sel' & s' & Hrun & Hnew & Hold & Hrest).
    { intros q Hq. rewrite Htime2. apply Hhelio. by right. }
    { rewrite Hmesh2, length_insert. lia. }
    { rewrite Hshow2. intros Hshow q Hq.
      destruct (decide (Planet.key q = Planet.key p)) as [E|E].
      - rewrite E, (Hown Hshow). destruct (Htrails Hshow p) as [tr ->]; [left|]. by eexists.
      - rewrite (Hother _ E). apply Htrails; [done|by right]. }
    exists sel', s'. split; [exact Hrun|]. split_and!.
    + intros [|j] q w Hj Hw.
      * injection Hj as <-. rewrite Hv in Hw. injection Hw as <-.
        rewrite Nat.add_0_r. split.
        -- rewrite Hold, Hmesh2 by lia. apply list_lookup_insert_eq. lia.
        -- intros Hshow. rewrite Hrest by done. by apply Hown.
      * change ((p :: ps) !! S j) with (ps !! j) in Hj.
        rewrite <- Htime2 in Hw. destruct (Hnew j q w Hj Hw) as [Hm' Ht'].
        replace (i + S j) with (S i + j) by lia. split; [done|].
        rewrite Hshow2 in Ht'. intros Hshow. rewrite (Ht' Hshow).
        rewrite Hother; [done|]. intros E. apply Hnotin. rewrite <- E.
        apply list_elem_of_fmap. exists q. split; [done|].
        by eapply list_elem_of_lookup_2.
    + intros j Hj. rewrite Hold, Hmesh2 by lia. apply list_lookup_insert_ne. lia.
    + intros k Hk. rewrite fmap_cons in Hk. apply not_elem_of_cons in Hk as [Hk1 Hk2].
      rewrite Hrest by done. by apply Hother.
Qed.

(** When the ephemeris throws for the body at index [k] of [ps], the
    loop throws, and from that body on nothing was touched. *)
Lemma tick_bodies_throws (ps : list Planet.t) :
  ∀ (k : nat) (p : Planet.t) (i : nat) (sel : option Vector3.t) (s : State),
    NoDup (Planet.key <$> ps) →
    ps !! k = Some p →
    HelioVector (Planet.body p) (simTime s) = None →
    ∃ sel' s',
      tick_bodies HelioVector ps i sel s = (sel', Thrown s')
      ∧ (∀ j, i + k ≤ j → planetMeshes s' !! j = planetMeshes s !! j)
      ∧ (∀ j q, k ≤ j → ps !! j = Some q →
           trails s' !! Planet.key q = trails s !! Planet.key q).
Proof.
  induction ps as [|p0 ps IH]; intros k p i sel s Hnd Hk Hnone.
  - by rewrite lookup_nil in Hk.
  - apply NoDup_cons in Hnd as [Hnotin Hnd]. cbn [tick_bodies].
    destruct k as [|k].
    + injection Hk as ->. rewrite (computeHelioPos_None _ _ _ Hnone).
      by exists sel, s.
    + change ((p0 :: ps) !! S k) with (ps !! k) in Hk.
      destruct (computeHelioPos HelioVector (Planet.body p0) (simTime s)) as [au|];
        [|by exists sel, s].
      destruct (planetMeshes s !! i) as [m|]; [|by exists sel, s].
      set (pos := multiplyScalar au AU_TO_UNITS).
      set (s1 := set_planetMeshes (<[i := pos]> (planetMeshes s)) s).
      change (showTrails s1) with (showTrails s).
      change (trails s1) with (trails s).
      assert (Hmesh1 : ∀ j, i + S k ≤ j → planetMeshes s1 !! j = planetMeshes s !! j).
      { intros j Hj. apply list_lookup_insert_ne. lia. }
      assert (Hkeys : ∀ j q, ps !! j = Some q → Planet.key q ≠ Planet.key p0).
      { intros j q Hq E. apply Hnotin. rewrite <- E. apply list_elem_of_fmap.
        exists q. split; [done|]. by eapply list_elem_of_lookup_2. }
      destruct (showTrails s).
      * destruct (trails s !! Planet.key p0) as [tr|].
        -- set (s2 := set_trails _ s1).
           destruct (IH k p (S i)
                       match selected s2 with
                       | Some sel0 =>
                           if (Planet.key sel0 =? Planet.key p0)%string
                           then Some au else sel
                       | None => sel
                       end s2 Hnd Hk Hnone) as (sel' & s' & Hrun & Hm & Ht).
           exists sel', s'. split; [exact Hrun|]. split.
           ++ intros j Hj. rewrite Hm by lia. by apply Hmesh1.
           ++ intros [|j] q Hj Hq; [lia|].
              change ((p0 :: ps) !! S j) with (ps !! j) in Hq.
              rewrite (Ht j q) by (done || lia).
              apply lookup_insert_ne. intros E. by apply (Hkeys j q Hq).
        -- exists sel, s1. split_and!; [done|done|]. done.
      * destruct (IH k p (S i)
                    match selected s1 with
                    | Some sel0 =>
                        if (Planet.key sel0 =? Planet.key p0)%string
                        then Some au else sel
                    | None => sel
                    end s1 Hnd Hk Hnone) as (sel' & s' & Hrun & Hm & Ht).
        exists sel', s'. split; [exact Hrun|]. split.
        -- intros j Hj. rewrite Hm by lia. by apply Hmesh1.
        -- intros [|j] q Hj Hq; [lia|].
           change ((p0 :: ps) !! S j) with (ps !! j) in Hq.
           by rewrite (Ht j q) by (done || lia).
Qed.

End Loop.

(** ** What [tick] and the handlers keep *)

Lemma scene_ok_pushed (s s' : State) :
  length (planetMeshes s') = length (planetMeshes s) →
  (∀ k, ∃ poss, trails s' !! k = pushes poss <$> trails s !! k) →
  scene_ok s = true → scene_ok s' = true.
Proof.
  intros L T. rewrite !scene_ok_spec. intros [Hl Hp].
  split; [congruence|]. intros p Hin.
  destruct (Hp p Hin) as (tr & E & Hok), (T (Planet.key p)) as [ps Eps].
  exists (pushes ps tr). rewrite Eps, E. split; [done|by apply pushes_ok].
Qed.

Lemma scene_ok_fmap (f : Trail.t → Trail.t) (s : State) :
  (∀ tr, trail_ok tr = true → trail_ok (f tr) = true) →
  scene_ok s = true → scene_ok (set_trails (f <$> trails s) s) = true.
Proof.
  intros Hf. rewrite !scene_ok_spec. intros [Hl Hp]. split; [done|].
  intros p Hin. destruct (Hp p Hin) as (tr & E & Hok).
  exists (f tr). simpl. rewrite lookup_fmap, E. split; [done|by apply Hf].
Qed.

Section Invariants.

Variable HelioVector : Body -> AstroTime -> option Vector3.t.
Variables Math_cos Math_sin : Q -> Q.

Local Abbreviation tick := (tick HelioVector Math_cos Math_sin).
Local Abbreviation handle := (handle HelioVector Math_cos Math_sin).
Local Abbreviation run := (run HelioVector Math_cos Math_sin).
Local Abbreviation main := (main HelioVector Math_cos Math_sin).

Lemma tick_clock_keeps (now : Q) (s : State) :
  let s1 := tick_clock now s in
  controls s1 = controls s ∧ selected s1 = selected s
  ∧ orbitLines s1 = orbitLines s
  ∧ planetMeshes s1 = planetMeshes s ∧ trails s1 = trails s
  ∧ paused s1 = paused s ∧ timeScale s1 = timeScale s
  ∧ showTrails s1 = showTrails s ∧ last s1 = now.
Proof.
  unfold tick_clock. change (paused (set_last now s)) with (paused s).
  destruct (paused s) eqn:E; simpl; by rewrite ?E.
Qed.

(** What a frame keeps, however it ends. *)
Lemma tick_keeps (now : Q) (s : State) :
  let s' := state_of (tick now s) in
  controls s' = controls s ∧ selected s' = selected s
  ∧ simTime s' = simTime (tick_clock now s)
  ∧ paused s' = paused s ∧ timeScale s' = timeScale s
  ∧ showTrails s' = showTrails s ∧ last s' = now
  ∧ orbitLines s' = orbitLines s
  ∧ length (planetMeshes s') = length (planetMeshes s)
  ∧ (∀ k, ∃ poss, trails s' !! k = pushes poss <$> trails s !! k)
  ∧ (showTrails s = false → trails s' = trails s).
Proof.
  intros s'. subst s'. unfold tick.
  pose proof (tick_bodies_step HelioVector bodies 0 None (tick_clock now s)) as Hstep.
  destruct (tick_clock_keeps now s) as (C1&C2&C3&C4&C5&C6&C7&C8&C9).
  set (s1 := tick_clock now s) in *.
  assert (∀ s2, scene_step s1 s2 →
    controls s2 = controls s ∧ selected s2 = selected s
    ∧ simTime s2 = simTime s1
    ∧ paused s2 = paused s ∧ timeScale s2 = timeScale s
    ∧ showTrails s2 = showTrails s ∧ last s2 = now
    ∧ orbitLines s2 = orbitLines s
    ∧ length (planetMeshes s2) = length (planetMeshes s)
    ∧ (∀ k, ∃ poss, trails s2 !! k = pushes poss <$> trails s !! k)
    ∧ (showTrails s = false → trails s2 = trails s)) as Hall.
  { intros s2 (F & L & T & S).
    destruct F as (F1&F2&F3&F4&F5&F6&F7&F8&F9&F10&F11&F12).
    split_and!; try congruence.
    - intros k. destruct (T k) as [ps E]. exists ps. by rewrite E, C5.
    - intros Hs. rewrite S by congruence. done. }
  destruct (tick_bodies HelioVector bodies 0 None s1) as [sel [s2|s2]];
    simpl in Hstep; [|by apply Hall].
  specialize (Hall s2 Hstep).
  cbn. destruct (selected s2) eqn:Es, sel; cbn; rewrite ?Es; try exact Hall.
  destruct (date_valid (simTime s2)); cbn; rewrite ?Es; exact Hall.
Qed.

Lemma buildOrbits_loop_keeps (ps : list Planet.t) (time : AstroTime) :
  ∀ s, ∃ ol, state_of (buildOrbits_loop HelioVector ps time s) = set_orbitLines ol s.
Proof.
  induction ps as [|p ps IH]; intros s; simpl.
  - exists (orbitLines s). by destruct s.
  - case_match.
    + destruct (IH (set_orbitLines
                      (orbitLines s ++ [((Planet.key p +:+ "-orbit")%string, l)]) s))
        as [ol E].
      exists ol. by rewrite E.
    + exists (orbitLines s). by destruct s.
Qed.

Lemma buildOrbits_keeps (time : AstroTime) (s : State) :
  ∃ ol, state_of (buildOrbits HelioVector time s) = set_orbitLines ol s.
Proof.
  unfold buildOrbits.
  destruct (buildOrbits_loop_keeps bodies time (set_orbitLines [] s)) as [ol E].
  exists ol. by rewrite E.
Qed.

(** The store of the module once its top level has run. *)
Lemma main_state (date now : Q) :
  ∃ ol b,
    state_of (main date now)
    = set_framePending b
        (set_orbitLines ol (updateCamera Math_cos Math_sin (declared date now))).
Proof.
  unfold main.
  destruct (buildOrbits_keeps (simTime (updateCamera Math_cos Math_sin (declared date now)))
              (updateCamera Math_cos Math_sin (declared date now))) as [ol E].
  destruct (buildOrbits _ _ _) as [s|s]; simpl in *; subst s.
  - by exists ol, true.
  - by exists ol, false.
Qed.

(** The invariant of the store. *)
Lemma handle_scene_ok (e : Event) (s : State) :
  scene_ok s = true → scene_ok (state_of (handle e s)) = true.
Proof.
  intros Hok. destruct e; simpl; try done.
  - unfold pointermove. by repeat case_match.
  - by destruct hit.
  - destruct (buildOrbits_keeps
                (simTime (resetTrails (set_simTime (MakeTime date) s)))
                (resetTrails (set_simTime (MakeTime date) s))) as [ol E].
    unfold btnNow_click. rewrite E.
    change (scene_ok (set_trails (resetTrail <$> trails s) s) = true).
    apply scene_ok_fmap; [apply trail_ok_reset|done].
  - change (scene_ok (set_trails (setVisible (negb (showTrails s)) <$> trails s) s) = true).
    apply scene_ok_fmap; [apply trail_ok_setVisible|done].
  - destruct (framePending s); [|done].
    destruct (tick_keeps now (set_framePending false s)) as (_&_&_&_&_&_&_&_&L&T&_).
    by eapply scene_ok_pushed.
Qed.

Lemma handle_controls_ok (e : Event) (s : State) :
  controls_ok (controls s) → controls_ok (controls (state_of (handle e s))).
Proof.
  intros [Hp Hd]. destruct e; simpl; try done.
  - unfold pointermove. repeat case_match; try done.
    split; [|done]. simpl. by apply Math_clamp_range.
  - split; [done|]. simpl. by apply Math_clamp_range.
  - by destruct hit.
  - destruct (buildOrbits_keeps
                (simTime (resetTrails (set_simTime (MakeTime date) s)))
                (resetTrails (set_simTime (MakeTime date) s))) as [ol E].
    unfold btnNow_click. by rewrite E.
  - destruct (framePending s); [|done].
    destruct (tick_keeps now (set_framePending false s)) as (E&_). by rewrite E.
Qed.

Lemma run_ok (es : list Event) (s : State) :
  scene_ok s = true → controls_ok (controls s) →
  scene_ok (run es s) = true ∧ controls_ok (controls (run es s)).
Proof.
  revert s. induction es as [|e es IH]; intros s Hs Hc; [done|].
  apply IH; [by apply handle_scene_ok|by apply handle_controls_ok].
Qed.

Lemma main_ok (date now : Q) :
  scene_ok (state_of (main date now)) = true
  ∧ controls_ok (controls (state_of (main date now))).
Proof.
  destruct (main_state date now) as (ol & b & ->). split; [by vm_compute|].
  split; simpl; lra.
Qed.

End Invariants.

(** * The clock *)

Section Clock.

Variable HelioVector : Body -> AstroTime -> option Vector3.t.
Variables Math_cos Math_sin : Q -> Q.

Local Abbreviation tick := (tick HelioVector Math_cos Math_sin).
Local Abbreviation handle := (handle HelioVector Math_cos Math_sin).
Local Abbreviation run := (run HelioVector Math_cos Math_sin).
Local Abbreviation main := (main HelioVector Math_cos Math_sin).

Lemma tick_simTime (now : Q) (s : State) :
  simTime (state_of (tick now s))
  = if paused s then simTime s
    else MakeTime (ut (simTime s)
                   + (Math_min 0.05 ((now - last s) / 1000) * timeScale s) / 86400).
Proof.
  destruct (tick_keeps HelioVector Math_cos Math_sin now s) as (_&_&->&_).
  unfold tick_clock. change (paused (set_last now s)) with (paused s).
  by destruct (paused s).
Qed.

Lemma handle_timeScale (e : Event) (s : State) :
  ¬ timeScale s == 0 → ¬ timeScale (state_of (handle e s)) == 0.
Proof.
  intros Hs. destruct e; simpl; try done.
  - unfold pointermove. by repeat case_match.
  - by destruct hit.
  - destruct (Qeq_bool value 0) eqn:E; [done|]. by apply Qeq_bool_neq.
  - destruct (buildOrbits_keeps HelioVector
                (simTime (resetTrails (set_simTime (MakeTime date) s)))
                (resetTrails (set_simTime (MakeTime date) s))) as [ol E].
    unfold btnNow_click. by rewrite E.
  - destruct (framePending s); [|done].
    destruct (tick_keeps HelioVector Math_cos Math_sin now (set_framePending false s))
      as (_&_&_&_&E&_).
    by rewrite E.
Qed.

Lemma run_timeScale (es : list Event) (s : State) :
  ¬ timeScale s == 0 → ¬ timeScale (run es s) == 0.
Proof.
  revert s. induction es as [|e es IH]; intros s Hs; [done|].
  by apply IH, handle_timeScale.
Qed.

Lemma main_timeScale (date now : Q) : timeScale (state_of (main date now)) = 600.
Proof.
  by destruct (main_state HelioVector Math_cos Math_sin date now) as (ol & b & ->).
Qed.


(** C1, as amended.  A frame with real-time delta
    [d = (now - last) / 1000] seconds: when the clock is not paused the
    new simulation time is the old one plus [min(d, 0.05) * timeScale]
    seconds, that is [/ 86400] days: there is no lower bound on [d], so
    this is the claim's [clamp(d, 0, 0.05)] for every [d >= 0], while a
    negative [d] moves the clock by [d * timeScale]; when the clock is
    paused the simulation time is unchanged. *)
Theorem tick_advances_clock (now : Q) (s : State) :
  let d := (now - last s) / 1000 in
  let s' := state_of (tick now s) in
  (paused s = false →
     ut (simTime s') == ut (simTime s) + Math_min 0.05 d * timeScale s / 86400)
  ∧ (paused s = false → 0 <= d →
     ut (simTime s')
     == ut (simTime s) + spec_clamp d 0 0.05 * timeScale s / 86400)
  ∧ (paused s = false → d <= 0 →
     ut (simTime s') == ut (simTime s) + d * timeScale s / 86400)
  ∧ (paused s = true → simTime s' = simTime s).
Proof.
  intros d s'. subst s'. rewrite tick_simTime. fold d.
  split_and!; intros Hp; rewrite Hp; simpl.
  - reflexivity.
  - intros Hd. unfold spec_clamp, Math_min.
    destruct (Q.max_spec 0 (Qmin 0.05 d)) as [[_ ->]|[H ->]]; [reflexivity|].
    destruct (Q.min_spec 0.05 d) as [[? E]|[? E]]; rewrite E in *; [lra|].
    assert (d == 0) as -> by lra. reflexivity.
  - intros Hd. unfold Math_min.
    destruct (Q.min_spec 0.05 d) as [[? E]|[? E]]; rewrite E; [lra|reflexivity].
  - done.
Qed.

(** C2, as amended.  At scale 600 and not paused, a frame with a real
    delta of one second moves the clock by 30 simulated seconds
    (0.05 * 600): the delta is cut to 0.05 s. *)
Theorem tick_one_second_at_600 (now : Q) (s : State) :
  paused s = false → timeScale s == 600 → (now - last s) / 1000 == 1 →
  ut (simTime (state_of (tick now s))) == ut (simTime s) + 30 / 86400.
Proof.
  intros Hp Hs Hd. rewrite tick_simTime, Hp. simpl. rewrite Hd, Hs.
  apply Qplus_comp; [reflexivity|]. by vm_compute.
Qed.


End Clock.

(** * The orbit camera *)

Lemma wheel_distance (deltaY : Q) (s : State) :
  Controls.distance (controls (wheel deltaY s))
  = Math_max 50
      (Math_min 12000 (Controls.distance (controls s) * (1 + Math_sign deltaY * 0.08))).
Proof. done. Qed.

Lemma wheel_iter_range (deltaY : Q) (s : State) (n : nat) :
  50 <= Controls.distance (controls (Nat.iter (S n) (wheel deltaY) s)) <= 12000.
Proof.
  change (Nat.iter (S n) (wheel deltaY) s)
    with (wheel deltaY (Nat.iter n (wheel deltaY) s)).
  rewrite wheel_distance. by apply Math_clamp_range.
Qed.

Lemma zoom_floor_reached (n : nat) : (72 ≤ n)%nat → 12000 <= zoom_floor n.
Proof.
  induction 1 as [|n Hn IH]; [by vm_compute|].
  change (zoom_floor (S n)) with (Qmin 12000 (zoom_floor n * (1 + 1 * 0.08))).
  destruct (Q.min_spec 12000 (zoom_floor n * (1 + 1 * 0.08))) as [[? ->]|[? ->]]; lra.
Qed.

Lemma zoom_ceiling_reached (n : nat) : (66 ≤ n)%nat → zoom_ceiling n <= 50.
Proof.
  induction 1 as [|n Hn IH]; [by vm_compute|].
  change (zoom_ceiling (S n)) with (Qmax 50 (zoom_ceiling n * (1 + -1 * 0.08))).
  destruct (Q.max_spec 50 (zoom_ceiling n * (1 + -1 * 0.08))) as [[? ->]|[? ->]]; lra.
Qed.

Lemma wheel_in_floor (deltaY : Q) (s : State) (n : nat) :
  0 < deltaY →
  zoom_floor n <= Controls.distance (controls (Nat.iter (S n) (wheel deltaY) s)).
Proof.
  intros Hpos. induction n as [|n IH].
  - apply wheel_iter_range.
  - change (Nat.iter (S (S n)) (wheel deltaY) s)
      with (wheel deltaY (Nat.iter (S n) (wheel deltaY) s)).
    rewrite wheel_distance, (Math_sign_pos _ Hpos).
    set (d := Controls.distance _) in *.
    change (zoom_floor (S n)) with (Qmin 12000 (zoom_floor n * (1 + 1 * 0.08))).
    unfold Math_max, Math_min.
    destruct (Q.min_spec 12000 (zoom_floor n * (1 + 1 * 0.08))) as [[? ->]|[? ->]];
      destruct (Q.max_spec 50 (Qmin 12000 (d * (1 + 1 * 0.08)))) as [[? ->]|[? ->]];
      destruct (Q.min_spec 12000 (d * (1 + 1 * 0.08))) as [[? E]|[? E]];
      rewrite ?E in *; lra.
Qed.

Lemma wheel_out_ceiling (deltaY : Q) (s : State) (n : nat) :
  deltaY < 0 →
  Controls.distance (controls (Nat.iter (S n) (wheel deltaY) s)) <= zoom_ceiling n.
Proof.
  intros Hneg. induction n as [|n IH].
  - apply wheel_iter_range.
  - change (Nat.iter (S (S n)) (wheel deltaY) s)
      with (wheel deltaY (Nat.iter (S n) (wheel deltaY) s)).
    rewrite wheel_distance, (Math_sign_neg _ Hneg).
    set (d := Controls.distance _) in *.
    change (zoom_ceiling (S n)) with (Qmax 50 (zoom_ceiling n * (1 + -1 * 0.08))).
    unfold Math_max, Math_min.
    destruct (Q.max_spec 50 (zoom_ceiling n * (1 + -1 * 0.08))) as [[? ->]|[? ->]];
      destruct (Q.max_spec 50 (Qmin 12000 (d * (1 + -1 * 0.08)))) as [[? ->]|[? ->]];
      destruct (Q.min_spec 12000 (d * (1 + -1 * 0.08))) as [[? E]|[? E]];
      rewrite ?E in *; lra.
Qed.

(** C9, as amended.  A wheel step multiplies the distance by
    [1 + sign * 0.08] and clamps it to [50, 12000], so after a step the
    distance is in that range from any start.  Repeated zoom(+1)
    (a positive [deltaY]) never lowers the distance and brings it up to
    12000, never above; repeated zoom(-1) never raises it and brings it
    down to 50, never below. *)
Theorem wheel_zoom_steps (deltaY : Q) (s : State) :
  let zoom n := Controls.distance (controls (Nat.iter n (wheel deltaY) s)) in
  zoom 1%nat
  = spec_clamp (zoom 0%nat * (1 + Math_sign deltaY * 0.08)) 50 12000
  ∧ (∀ n, (1 ≤ n)%nat → 50 <= zoom n <= 12000)
  ∧ (0 < deltaY →
       (∀ n, (n = 0%nat → zoom 0%nat <= 12000) → zoom n <= zoom (S n))
       ∧ (∀ n, (73 ≤ n)%nat → zoom n == 12000))
  ∧ (deltaY < 0 →
       (∀ n, (n = 0%nat → 50 <= zoom 0%nat) → zoom (S n) <= zoom n)
       ∧ (∀ n, (67 ≤ n)%nat → zoom n == 50)).
Proof.
  intros zoom.
  assert (Hrange : ∀ n, (1 ≤ n)%nat → 50 <= zoom n <= 12000).
  { intros [|n] Hn; [lia|]. apply wheel_iter_range. }
  assert (Hstep : ∀ n, zoom (S n)
            = Math_max 50 (Math_min 12000 (zoom n * (1 + Math_sign deltaY * 0.08)))).
  { intros n. subst zoom. cbv beta.
    change (Nat.iter (S n) (wheel deltaY) s)
      with (wheel deltaY (Nat.iter n (wheel deltaY) s)).
    by rewrite wheel_distance. }
  split_and!; [done|done| |].
  - intros Hpos. split.
    + intros n Hn0. assert (zoom n <= 12000) as Hle.
      { destruct n; [by apply Hn0|]. apply Hrange. lia. }
      rewrite Hstep, (Math_sign_pos _ Hpos). unfold Math_max, Math_min.
      destruct (Q.max_spec 50 (Qmin 12000 (zoom n * (1 + 1 * 0.08)))) as [[? ->]|[? ->]];
        destruct (Q.min_spec 12000 (zoom n * (1 + 1 * 0.08))) as [[? E]|[? E]];
        rewrite ?E in *; lra.
    + intros [|n] Hn; [lia|].
      pose proof (wheel_in_floor deltaY s n Hpos) as Hfloor.
      pose proof (zoom_floor_reached n ltac:(lia)) as Htop.
      pose proof (Hrange (S n) ltac:(lia)) as [_ Hle].
      fold (zoom (S n)) in Hfloor. lra.
  - intros Hneg. split.
    + intros n Hn0. assert (50 <= zoom n) as Hle.
      { destruct n; [by apply Hn0|]. apply Hrange. lia. }
      rewrite Hstep, (Math_sign_neg _ Hneg). unfold Math_max, Math_min.
      destruct (Q.max_spec 50 (Qmin 12000 (zoom n * (1 + -1 * 0.08)))) as [[? ->]|[? ->]];
        destruct (Q.min_spec 12000 (zoom n * (1 + -1 * 0.08))) as [[? E]|[? E]];
        rewrite ?E in *; lra.
    + intros [|n] Hn; [lia|].
      pose proof (wheel_out_ceiling deltaY s n Hneg) as Hceil.
      pose proof (zoom_ceiling_reached n ltac:(lia)) as Hbot.
      pose proof (Hrange (S n) ltac:(lia)) as [Hle _].
      fold (zoom (S n)) in Hceil. lra.
Qed.

Section Camera.

Variable HelioVector : Body -> AstroTime -> option Vector3.t.
Variables Math_cos Math_sin : Q -> Q.

Local Abbreviation run := (run HelioVector Math_cos Math_sin).
Local Abbreviation main := (main HelioVector Math_cos Math_sin).

(** C8.  From the start-up state (pitch 0.35, distance 900), after any
    sequence of events (orbit drags, pan drags, wheel steps and all the
    others) the pitch is in [-1.25, 1.25] and the distance in
    [50, 12000]; an orbit drag (a button other than the right one) whose
    [dy] is 500 or more sets the pitch to -1.25 itself, and one whose
    [dy] is -500 or less sets it to 1.25 itself. *)
Theorem camera_ranges_kept (date now : Q) (es : list Event) :
  let s := run es (state_of (main date now)) in
  (-1.25 <= Controls.pitch (controls s) <= 1.25
   ∧ 50 <= Controls.distance (controls s) <= 12000)
  ∧ (∀ (button : Z) (x0 y0 x1 y1 : Q) (r : Vector3.t),
       button ≠ 2%Z →
       let s' := pointermove x1 y1 r (pointerdown button x0 y0 s) in
       (500 <= y1 - y0 → Controls.pitch (controls s') = -1.25)
       ∧ (y1 - y0 <= -500 → Controls.pitch (controls s') = 1.25)).
Proof.
  intros s.
  destruct (main_ok HelioVector Math_cos Math_sin date now) as [Hs Hc].
  destruct (run_ok HelioVector Math_cos Math_sin es _ Hs Hc) as [_ [Hp Hd]].
  fold s in Hp, Hd. split; [done|].
  intros button x0 y0 x1 y1 r Hb s'. subst s'.
  unfold pointermove, pointerdown. simpl.
  destruct (Z.eqb_spec button 2) as [|_]; [done|]. simpl.
  split; intros Hdy.
  - apply Math_clamp_low; lra.
  - apply Math_clamp_high; lra.
Qed.

End Camera.

(** * The trails *)

Local Open Scope nat_scope.

Lemma bodies_keys_NoDup : NoDup (Planet.key <$> bodies).
Proof. apply (bool_decide_unpack _). by vm_compute. Qed.

Lemma pushes_replicate_drawn (n : nat) (pos : Vector3.t) (tr : Trail.t) :
  trail_ok tr = true → Trail.maxPts tr ≤ n →
  drawn (Trail.line (pushes (replicate n pos) tr))
  = replicate (Trail.maxPts tr) pos.
Proof.
  intros Hok Hn. destruct (trail_ok_holds _ Hok) as (vs & H).
  destruct (pushes_rotate (replicate n pos) tr vs H)
    as (vs' & (Harr & Hmax & Hpos) & Hl & Hc & Hm & _ & Hr).
  pose proof (pushes_ok (replicate n pos) tr Hok) as Hok'.
  unfold trail_ok in Hok'. rewrite !andb_true_iff, !Nat.eqb_eq in Hok'.
  destruct Hok' as [[_ Hfst] Hsnd].
  destruct H as (_ & Hmax0 & _).
  rewrite length_replicate in Hr, Hc.
  assert (Hrot : rotate (Trail.count (pushes (replicate n pos) tr)) vs'
                 = replicate (length vs) pos).
  { rewrite Hr, drop_app_ge by (rewrite length_rotate; lia).
    rewrite length_rotate, drop_replicate.
    f_equal. assert (length vs ≤ n) by lia. lia. }
  assert (Hall : Forall (pos =.) vs').
  { rewrite <- (take_drop (Trail.count (pushes (replicate n pos) tr) mod length vs') vs').
    unfold rotate in Hrot.
    pose proof (Forall_replicate_eq (length vs) pos) as Hrep.
    rewrite <- Hrot in Hrep. apply Forall_app in Hrep as [? ?].
    by apply Forall_app. }
  unfold drawn. destruct (Line.drawRange _) as [a b]. simpl in Hfst, Hsnd. subst a b.
  rewrite Harr, (omap_lookup_seq _ vs') by apply vertex_flat.
  simpl. rewrite take_ge by lia. rewrite Hmax0, <- Hl.
  symmetry. by apply replicate_as_Forall_2.
Qed.

(** C4, as amended.  After pushing [N >= C] positions into a trail buffer
    of capacity [C], the draw range handed to the renderer is [0, C): the
    polyline has exactly [C] points, in raw storage order.  They are the
    last [C] pushed positions: read from storage index [count mod C] on,
    wrapping round, they come oldest to newest. *)
Theorem trail_polyline_is_raw_storage (tr : Trail.t) (ps : list Vector3.t) :
  trail_ok tr = true → Trail.maxPts tr ≤ length ps →
  let tr' := pushes ps tr in
  let C := Trail.maxPts tr in
  let k := Trail.count tr' mod C in
  let polyline := drawn (Trail.line tr') in
  Line.drawRange (Trail.line tr') = (0, C)
  ∧ length polyline = C
  ∧ (∀ i v, polyline !! i = Some v ↔ vertex (Line.array (Trail.line tr')) i = Some v ∧ i < C)
  ∧ drop k polyline ++ take k polyline = drop (length ps - C) ps.
Proof.
  intros Hok Hn tr' C k polyline.
  destruct (trail_ok_holds _ Hok) as (vs & H).
  destruct (pushes_rotate ps tr vs H)
    as (vs' & (Harr & Hmax & Hpos) & Hl & Hc & Hm & _ & Hr).
  pose proof (pushes_ok ps tr Hok) as Hok'.
  unfold trail_ok in Hok'. rewrite !andb_true_iff, !Nat.eqb_eq in Hok'.
  destruct Hok' as [[_ Hfst] Hsnd].
  destruct H as (_ & Hmax0 & _).
  fold tr' in Harr, Hmax, Hc, Hm, Hr, Hfst, Hsnd.
  assert (Hrange : Line.drawRange (Trail.line tr') = (0, C)).
  { destruct (Line.drawRange _) as [a b]. simpl in Hfst, Hsnd. subst a b.
    f_equal. subst C. rewrite Hm, Hc. lia. }
  assert (Hpoly : polyline = vs').
  { subst polyline. unfold drawn. rewrite Hrange. simpl.
    rewrite Harr, (omap_lookup_seq _ vs') by apply vertex_flat.
    apply take_ge. subst C. lia. }
  split_and!; [done|subst C; rewrite Hpoly; lia| |].
  - intros i v. rewrite Hpoly, Harr, vertex_flat. split.
    + intros Hi. split; [done|]. apply lookup_lt_Some in Hi. subst C. lia.
    + by intros [? _].
  - rewrite Hpoly. subst k C. rewrite Hm in Hmax. rewrite Hmax.
    fold (rotate (Trail.count tr') vs'). rewrite Hr.
    rewrite drop_app_ge by (rewrite length_rotate; lia).
    by rewrite length_rotate, <- Hl.
Qed.

Lemma pushes_count (ps : list Vector3.t) (tr : Trail.t) :
  Trail.count (pushes ps tr) = Trail.count tr + length ps
  ∧ Trail.maxPts (pushes ps tr) = Trail.maxPts tr.
Proof.
  revert tr. induction ps as [|p ps IH]; intros tr; [by rewrite Nat.add_0_r|].
  change (pushes (p :: ps) tr) with (pushes ps (tick_trail p tr)).
  destruct (IH (tick_trail p tr)) as [-> ->]. simpl. lia.
Qed.

Section Trails.

Variable HelioVector : Body -> AstroTime -> option Vector3.t.
Variables Math_cos Math_sin : Q -> Q.

Local Abbreviation tick := (tick HelioVector Math_cos Math_sin).
Local Abbreviation frames := (frames HelioVector Math_cos Math_sin).
Local Abbreviation handle := (handle HelioVector Math_cos Math_sin).
Local Abbreviation run := (run HelioVector Math_cos Math_sin).
Local Abbreviation main := (main HelioVector Math_cos Math_sin).

(** C5.  In every store the events can reach, the trail of a planet has
    the draw range [0, min(maxPts, count)).  A push writes the position
    at point [count mod maxPts] of the array, leaves the other points,
    adds one to [count] and keeps that draw range; [resetTrails] sets
    [count] to 0 and the draw range to nothing; a push after it draws
    exactly the pushed position. *)
Theorem trail_push_and_clear (date now : Q) (es : list Event) (p : Planet.t) :
  p ∈ bodies →
  let s := run es (state_of (main date now)) in
  ∃ tr,
    trails s !! Planet.key p = Some tr
    ∧ Line.drawRange (Trail.line tr)
      = (0, Nat.min (Trail.maxPts tr) (Trail.count tr))
    ∧ (∀ pos,
         let idx := Trail.count tr mod Trail.maxPts tr in
         let tr' := tick_trail pos tr in
         vertex (Line.array (Trail.line tr')) idx = Some pos
         ∧ (∀ j, j ≠ idx →
              vertex (Line.array (Trail.line tr')) j
              = vertex (Line.array (Trail.line tr)) j)
         ∧ Trail.count tr' = S (Trail.count tr)
         ∧ Line.drawRange (Trail.line tr')
           = (0, Nat.min (Trail.maxPts tr') (Trail.count tr')))
    ∧ trails (resetTrails s) !! Planet.key p = Some (resetTrail tr)
    ∧ Trail.count (resetTrail tr) = 0
    ∧ Line.drawRange (Trail.line (resetTrail tr)) = (0, 0)
    ∧ drawn (Trail.line (resetTrail tr)) = []
    ∧ (∀ pos, drawn (Trail.line (tick_trail pos (resetTrail tr))) = [pos]).
Proof.
  intros Hin s.
  destruct (main_ok HelioVector Math_cos Math_sin date now) as [Hs Hc].
  destruct (run_ok HelioVector Math_cos Math_sin es _ Hs Hc) as [Hok _].
  fold s in Hok. apply scene_ok_spec in Hok as [_ Hok].
  destruct (Hok p Hin) as (tr & Htr & Htrok). exists tr.
  destruct (trail_ok_holds _ Htrok) as (vs & H).
  pose proof Htrok as Hflags. unfold trail_ok in Hflags.
  rewrite !andb_true_iff, !Nat.eqb_eq in Hflags.
  destruct Hflags as [[_ Hfst] Hsnd].
  split_and!; try done.
  - destruct (Line.drawRange _) as [a b]. simpl in *. by subst.
  - intros pos idx tr'. subst idx tr'.
    rewrite (tick_trail_holds _ _ pos H). destruct H as (Harr & Hmax & Hpos).
    simpl. rewrite Hmax, Harr, !vertex_flat. split_and!; try done.
    + apply list_lookup_insert_eq, Nat.mod_upper_bound. lia.
    + intros j Hj. rewrite !vertex_flat. by apply list_lookup_insert_ne.
  - simpl. by rewrite lookup_fmap, Htr.
  - intros pos.
    assert (holds (resetTrail tr) vs) as H' by exact H.
    rewrite (tick_trail_holds _ _ pos H'). destruct H as (_ & _ & Hpos).
    cbn [Trail.line]. rewrite drawn_flat.
    change (Trail.count (resetTrail tr)) with 0. rewrite Nat.Div0.mod_0_l.
    rewrite Nat.min_r by lia.
    destruct vs as [|v vs]; [simpl in Hpos; lia|]. done.
Qed.

(** C6, as amended.  The trails button changes the [visible] flag of the
    trail lines and nothing else of a trail (array, draw range, capacity
    and count stay).  While trails are hidden a frame leaves every trail
    buffer as it is: nothing is recorded, so a trail shown again is the
    one that was hidden. *)
Theorem hidden_trails_do_not_record (s : State) :
  (∀ k, trails (btnTrails_click s) !! k
        = setVisible (negb (showTrails s)) <$> trails s !! k)
  ∧ (∀ tr b,
       Line.array (Trail.line (setVisible b tr)) = Line.array (Trail.line tr)
       ∧ Line.drawRange (Trail.line (setVisible b tr))
         = Line.drawRange (Trail.line tr)
       ∧ Trail.maxPts (setVisible b tr) = Trail.maxPts tr
       ∧ Trail.count (setVisible b tr) = Trail.count tr)
  ∧ (∀ now, showTrails s = false →
       trails (state_of (tick now s)) = trails s
       ∧ showTrails (state_of (tick now s)) = false)
  ∧ (∀ nows, showTrails s = false →
       trails (state_of (frames nows s)) = trails s).
Proof.
  split_and!.
  - intros k. simpl. by rewrite lookup_fmap.
  - done.
  - intros now Hs.
    destruct (tick_keeps HelioVector Math_cos Math_sin now s)
      as (_&_&_&_&_&E&_&_&_&_&T).
    split; [by apply T|congruence].
  - intros nows. revert s. induction nows as [|now nows IH]; intros s Hs; [done|].
    simpl.
    destruct (tick_keeps HelioVector Math_cos Math_sin now s)
      as (_&_&_&_&_&E&_&_&_&_&T).
    destruct (tick now s) as [s'|s']; simpl in *.
    + rewrite IH by congruence. by apply T.
    + by apply T.
Qed.

(** A paused frame with trails shown, on a store with every mesh and
    trail in place and an ephemeris that answers: however the frame
    ends, the clock has not moved and every trail got one push of its
    body's position; the frame returns when the info panel can be
    written, that is when nothing is selected or the date is valid. *)
Lemma tick_paused (now : Q) (s : State) :
  scene_ok s = true → paused s = true → showTrails s = true →
  (∀ q, q ∈ bodies → is_Some (HelioVector (Planet.body q) (simTime s))) →
  let s' := state_of (tick now s) in
  scene_ok s' = true ∧ paused s' = true ∧ showTrails s' = true
  ∧ simTime s' = simTime s ∧ selected s' = selected s
  ∧ (∀ p v, p ∈ bodies → HelioVector (Planet.body p) (simTime s) = Some v →
       trails s' !! Planet.key p
       = tick_trail (scene_pos v) <$> trails s !! Planet.key p)
  ∧ (selected s = None ∨ date_valid (simTime s) = true →
     tick now s = Returned s').
Proof.
  intros Hok Hp Hshow Hhelio s'.
  pose proof (tick_keeps HelioVector Math_cos Math_sin now s) as Hkeep.
  pose proof Hok as Hok'. apply scene_ok_spec in Hok' as [Hlen Htr].
  assert (Hclock : tick_clock now s = set_last now s).
  { unfold tick_clock. change (paused (set_last now s)) with (paused s).
    by rewrite Hp. }
  destruct (tick_bodies_returns HelioVector bodies 0 None (set_last now s)
              bodies_keys_NoDup) as (sel' & s2 & Hrun & Hnew & _ & _).
  { exact Hhelio. }
  { change (planetMeshes (set_last now s)) with (planetMeshes s).
    rewrite Hlen. lia. }
  { intros _ q Hq. destruct (Htr q Hq) as (tr & E & _).
    change (trails (set_last now s)) with (trails s). by rewrite E. }
  pose proof (tick_bodies_step HelioVector bodies 0 None (set_last now s)) as Hstep.
  rewrite Hrun in Hstep. simpl in Hstep.
  destruct Hstep as ((_&_&_&Hsel2&_&Ht2&_) & _).
  change (selected (set_last now s)) with (selected s) in Hsel2.
  change (simTime (set_last now s)) with (simTime s) in Ht2.
  assert (trails s' = trails s2
          ∧ (selected s = None ∨ date_valid (simTime s) = true →
             tick now s = Returned s')) as [Etr Eret].
  { subst s'. unfold tick. rewrite Hclock, Hrun. cbn.
    rewrite Hsel2, Ht2. destruct (selected s) as [q|], sel' as [au|];
      try (split; [done|by intros _]).
    cbn. destruct (date_valid (simTime s)); cbn; [split; [done|by intros _]|].
    split; [done|]. by intros [?|?]. }
  fold s' in Hkeep. destruct Hkeep as (_&Hsel&Ht&Hpa&_&Hsh&_&_&L&T&_).
  split_and!; try congruence.
  - by eapply scene_ok_pushed.
  - rewrite Ht, Hclock. done.
  - intros p v Hin Hv. apply list_elem_of_lookup in Hin as [j Hj].
    destruct (Hnew j p v Hj Hv) as [_ Htrail].
    rewrite Etr. by apply Htrail.
  - exact Eret.
Qed.

Lemma frames_paused (nows : list Q) :
  ∀ s,
    scene_ok s = true → paused s = true → showTrails s = true →
    (∀ q, q ∈ bodies → is_Some (HelioVector (Planet.body q) (simTime s))) →
    selected s = None ∨ date_valid (simTime s) = true →
    ∃ s', frames nows s = Returned s'
      ∧ simTime s' = simTime s
      ∧ (∀ p v, p ∈ bodies →
           HelioVector (Planet.body p) (simTime s) = Some v →
           trails s' !! Planet.key p
           = pushes (replicate (length nows) (scene_pos v))
               <$> trails s !! Planet.key p).
Proof.
  induction nows as [|now nows IH]; intros s Hok Hp Hshow Hhelio Hinfo.
  - exists s. split_and!; [done|done|]. intros p v _ _. simpl.
    by destruct (trails s !! Planet.key p).
  - destruct (tick_paused now s Hok Hp Hshow Hhelio)
      as (Hok1 & Hp1 & Hs1 & Ht1 & Hsel1 & Htr1 & Hret).
    specialize (Hret Hinfo).
    set (s1 := state_of (tick now s)) in *.
    destruct (IH s1 Hok1 Hp1 Hs1) as (s' & Hrun' & Ht' & Htr').
    { intros q Hq. rewrite Ht1. by apply Hhelio. }
    { by rewrite Hsel1, Ht1. }
    exists s'. simpl. rewrite Hret. split_and!; [done|congruence|].
    intros p v Hin Hv. rewrite (Htr' p v Hin) by (by rewrite Ht1).
    rewrite (Htr1 p v Hin Hv). by destruct (trails s !! Planet.key p).
Qed.

(** C10.  While the clock is paused and trails are shown, every frame
    still reads each body's position at the unchanged simulation time
    and pushes it into that body's trail, adding one to [count], however
    the frame ends afterwards.  The frames follow one another as long as
    the info panel can be written (nothing is selected, or the date of
    the simulation time is a valid Date): after [maxPts] or more such
    frames the trail drawn for the body is [maxPts] copies of that one
    position. *)
Theorem paused_frames_fill_trail (s : State) (nows : list Q) (p : Planet.t)
    (v : Vector3.t) (tr : Trail.t) :
  scene_ok s = true → paused s = true → showTrails s = true →
  (∀ q, q ∈ bodies → is_Some (HelioVector (Planet.body q) (simTime s))) →
  p ∈ bodies → HelioVector (Planet.body p) (simTime s) = Some v →
  trails s !! Planet.key p = Some tr →
  (∀ now,
     simTime (state_of (tick now s)) = simTime s
     ∧ trails (state_of (tick now s)) !! Planet.key p
       = Some (tick_trail (scene_pos v) tr)
     ∧ Trail.count (tick_trail (scene_pos v) tr) = S (Trail.count tr))
  ∧ (selected s = None ∨ date_valid (simTime s) = true →
     ∃ s' tr',
       frames nows s = Returned s'
       ∧ simTime s' = simTime s
       ∧ trails s' !! Planet.key p = Some tr'
       ∧ tr' = pushes (replicate (length nows) (scene_pos v)) tr
       ∧ Trail.count tr' = Trail.count tr + length nows
       ∧ (Trail.maxPts tr ≤ length nows →
          drawn (Trail.line tr') = replicate (Trail.maxPts tr) (scene_pos v))).
Proof.
  intros Hok Hp Hshow Hhelio Hin Hv Htr. split.
  - intros now.
    destruct (tick_paused now s Hok Hp Hshow Hhelio)
      as (_ & _ & _ & Ht & _ & Htrails & _).
    split_and!; [done| |done].
    by rewrite (Htrails p v Hin Hv), Htr.
  - intros Hinfo.
    destruct (frames_paused nows s Hok Hp Hshow Hhelio Hinfo)
      as (s' & Hrun & Ht & Htrails).
    exists s', (pushes (replicate (length nows) (scene_pos v)) tr).
    split_and!; try done.
    + by rewrite (Htrails p v Hin Hv), Htr.
    + destruct (pushes_count (replicate (length nows) (scene_pos v)) tr) as [-> _].
      by rewrite length_replicate.
    + intros Hn. apply pushes_replicate_drawn; [|done].
      apply scene_ok_spec in Hok as [_ Hok].
      destruct (Hok p Hin) as (tr0 & E & ?). congruence.
Qed.

End Trails.

(** * A failing ephemeris *)

Section Failure.

Variable HelioVector : Body -> AstroTime -> option Vector3.t.
Variables Math_cos Math_sin : Q -> Q.

Local Abbreviation tick := (tick HelioVector Math_cos Math_sin).
Local Abbreviation handle := (handle HelioVector Math_cos Math_sin).
Local Abbreviation run := (run HelioVector Math_cos Math_sin).
Local Abbreviation main := (main HelioVector Math_cos Math_sin).

Lemma tick_clock_keeps_view (now : Q) (s : State) :
  let s1 := tick_clock now s in
  camera s1 = camera s ∧ info s1 = info s ∧ rendered s1 = rendered s
  ∧ framePending s1 = framePending s.
Proof.
  unfold tick_clock. change (paused (set_last now s)) with (paused s).
  by destruct (paused s).
Qed.

(** A frame in which the ephemeris throws for the body at index [k] of
    the catalog, and answers for the bodies before it. *)
Lemma tick_throws (now : Q) (s : State) (k : nat) (p : Planet.t) :
  scene_ok s = true →
  bodies !! k = Some p →
  HelioVector (Planet.body p) (simTime (tick_clock now s)) = None →
  (∀ j q, j < k → bodies !! j = Some q →
     is_Some (HelioVector (Planet.body q) (simTime (tick_clock now s)))) →
  ∃ s',
    tick now s = Thrown s'
    ∧ camera s' = camera s ∧ info s' = info s ∧ rendered s' = rendered s
    ∧ framePending s' = framePending s
    ∧ (∀ j q, k ≤ j → bodies !! j = Some q →
         planetMeshes s' !! j = planetMeshes s !! j
         ∧ trails s' !! Planet.key q = trails s !! Planet.key q)
    ∧ (∀ j q v, j < k → bodies !! j = Some q →
         HelioVector (Planet.body q) (simTime (tick_clock now s)) = Some v →
         planetMeshes s' !! j = Some (scene_pos v)
         ∧ (showTrails s = true →
            trails s' !! Planet.key q
            = tick_trail (scene_pos v) <$> trails s !! Planet.key q)).
Proof.
  intros Hok Hk Hnone Hbefore.
  destruct (tick_clock_keeps now s) as (_&_&_&Cm&Ct&_&_&Cs&_).
  destruct (tick_clock_keeps_view now s) as (V1&V2&V3&V4).
  set (s1 := tick_clock now s) in *.
  apply scene_ok_spec in Hok as [Hlen Htr].
  pose proof (lookup_lt_Some _ _ _ Hk) as Hklt.
  (* the bodies before the failing one *)
  destruct (tick_bodies_returns HelioVector (take k bodies) 0 None s1)
    as (sel' & s2 & Hrun & Hnew & _ & _).
  { rewrite fmap_take. eapply sublist_NoDup; [|apply sublist_take].
    apply bodies_keys_NoDup. }
  { intros q Hq. apply list_elem_of_lookup in Hq as [j Hj].
    apply lookup_take_Some in Hj as [Hj Hlt]. by eapply Hbefore. }
  { rewrite length_take, Cm, Hlen. lia. }
  { intros _ q Hq. apply elem_of_take in Hq as (j & Hj & _).
    apply list_elem_of_lookup_2 in Hj.
    destruct (Htr q Hj) as (tr & E & _). rewrite Ct, E. by eexists. }
  pose proof (tick_bodies_step HelioVector (take k bodies) 0 None s1) as Hstep.
  rewrite Hrun in Hstep. simpl in Hstep.
  destruct Hstep as ((F1&F2&F3&F4&F5&F6&F7&F8&F9&F10&F11&F12) & _).
  (* the whole loop *)
  assert (Hloop : tick_bodies HelioVector bodies 0 None s1 = (sel', Thrown s2)).
  { rewrite <- (take_drop_middle bodies k p Hk) at 1.
    rewrite tick_bodies_app, Hrun. cbn [tick_bodies].
    by rewrite (computeHelioPos_None _ _ _ (eq_ind_r (λ t, HelioVector _ t = None) Hnone F6)). }
  destruct (tick_bodies_throws HelioVector bodies k p 0 None s1
              bodies_keys_NoDup Hk Hnone) as (sel'' & s3 & Hrun3 & Hm3 & Ht3).
  rewrite Hloop in Hrun3. injection Hrun3 as _ <-.
  exists s2. split_and!; try congruence.
  - unfold tick. fold s1. by rewrite Hloop.
  - intros j q Hj Hq. split.
    + rewrite Hm3, Cm by lia. done.
    + rewrite (Ht3 j q Hj Hq), Ct. done.
  - intros j q v Hj Hq Hv.
    destruct (Hnew j q v) as [Hmesh Htrail]; [|done|].
    { apply lookup_take_Some. by split. }
    split; [done|]. intros Hshow. rewrite Htrail, Ct by congruence. done.
Qed.

(** C3, as amended.  In a store the events can reach, a frame in which
    the ephemeris throws for one body ends there with the exception:
    the meshes (and, with trails shown, the trails) of the bodies before
    it in the catalog have their new positions, while the mesh and trail
    of the failing body and of every body after it, the camera and the
    info panel are as before the frame, nothing is rendered, and no next
    frame is requested. *)
Theorem ephemeris_failure_ends_frame (date now0 : Q) (es : list Event)
    (now : Q) (k : nat) (p : Planet.t) :
  let s := run es (state_of (main date now0)) in
  let t := simTime (tick_clock now s) in
  bodies !! k = Some p →
  HelioVector (Planet.body p) t = None →
  (∀ j q, j < k → bodies !! j = Some q →
     is_Some (HelioVector (Planet.body q) t)) →
  ∃ s',
    tick now s = Thrown s'
    ∧ camera s' = camera s ∧ info s' = info s ∧ rendered s' = rendered s
    ∧ framePending s' = framePending s
    ∧ returned (handle (AnimationFrame now) s) = negb (framePending s)
    ∧ framePending (state_of (handle (AnimationFrame now) s)) = false
    ∧ (∀ j q, k ≤ j → bodies !! j = Some q →
         planetMeshes s' !! j = planetMeshes s !! j
         ∧ trails s' !! Planet.key q = trails s !! Planet.key q)
    ∧ (∀ j q v, j < k → bodies !! j = Some q →
         HelioVector (Planet.body q) t = Some v →
         planetMeshes s' !! j = Some (scene_pos v)
         ∧ (showTrails s = true →
            trails s' !! Planet.key q
            = tick_trail (scene_pos v) <$> trails s !! Planet.key q)).
Proof.
  intros s t Hk Hnone Hbefore.
  destruct (main_ok HelioVector Math_cos Math_sin date now0) as [Hs Hc].
  destruct (run_ok HelioVector Math_cos Math_sin es _ Hs Hc) as [Hok _].
  fold s in Hok.
  destruct (tick_throws now s k p Hok Hk Hnone Hbefore)
    as (s' & Hrun & H1 & H2 & H3 & H4 & H5 & H6).
  exists s'. split_and!; try done.
  - simpl. destruct (framePending s) eqn:Hf; [|done].
    assert (simTime (tick_clock now (set_framePending false s)) = t) as Et.
    { subst t. unfold tick_clock. simpl. by destruct (paused s). }
    destruct (tick_throws now (set_framePending false s) k p Hok Hk)
      as (s'' & -> & _); by rewrite ?Et.
  - simpl. destruct (framePending s) eqn:Hf; [|done].
    assert (simTime (tick_clock now (set_framePending false s)) = t) as Et.
    { subst t. unfold tick_clock. simpl. by destruct (paused s). }
    destruct (tick_throws now (set_framePending false s) k p Hok Hk)
      as (s'' & -> & _ & _ & _ & E & _); by rewrite ?Et.
Qed.

End Failure.

(** * Pause and Now *)

Local Open Scope nat_scope.

Section Buttons.

Variable HelioVector : Body -> AstroTime -> option Vector3.t.
Variables Math_cos Math_sin : Q -> Q.

Local Abbreviation frames := (frames HelioVector Math_cos Math_sin).
Local Abbreviation run := (run HelioVector Math_cos Math_sin).
Local Abbreviation main := (main HelioVector Math_cos Math_sin).

Lemma buildOrbits_pts_total (body : Body) (time : AstroTime) (samples n : nat) :
  (∀ b t, is_Some (HelioVector b t)) →
  ∀ i, ∃ pts,
    buildOrbits_pts HelioVector body time samples i n = Some pts
    ∧ length pts = n.
Proof.
  intros Htotal. induction n as [|n IH]; intros i; [by exists []|].
  cbn [buildOrbits_pts]. cbv zeta.
  destruct (Htotal body
              (MakeTime (ut time
                 + (inject_Z (Z.of_nat i) / inject_Z (Z.of_nat samples) * 365.25)%Q)))
    as [v Hv].
  rewrite (computeHelioPos_Some _ _ _ _ Hv).
  destruct (IH (S i)) as (pts & -> & Hlen).
  eexists. split; [done|]. simpl. by rewrite Hlen.
Qed.

Lemma buildOrbits_loop_total (ps : list Planet.t) (time : AstroTime) :
  (∀ b t, is_Some (HelioVector b t)) →
  ∀ s, ∃ lines,
    buildOrbits_loop HelioVector ps time s
    = Returned (set_orbitLines (orbitLines s ++ lines) s)
    ∧ length lines = length ps
    ∧ Forall (λ line, length line.2 = 360) lines.
Proof.
  intros Htotal. induction ps as [|p ps IH]; intros s.
  - exists []. rewrite app_nil_r. split_and!; [by destruct s|done|done].
  - cbn [buildOrbits_loop]. cbv zeta.
    destruct (buildOrbits_pts_total (Planet.body p) time 360 360 Htotal 0)
      as (pts & -> & Hlen).
    destruct (IH (set_orbitLines
                    (orbitLines s ++ [((Planet.key p +:+ "-orbit")%string, pts)]) s))
      as (lines & -> & Hl & Hall).
    exists (((Planet.key p +:+ "-orbit")%string, pts) :: lines).
    split_and!.
    + simpl. by rewrite <- app_assoc.
    + simpl. by rewrite Hl.
    + by constructor.
Qed.

(** X1.  Pressing Pause twice gives the store back as it was, pressing
    it never moves the clock, and no number of frames moves the clock
    while it is paused. *)
Theorem pause_twice_and_paused_frames (s : State) (nows : list Q) :
  btnPause_click (btnPause_click s) = s
  ∧ simTime (btnPause_click s) = simTime s
  ∧ (paused s = true → simTime (state_of (frames nows s)) = simTime s).
Proof.
  split_and!.
  - unfold btnPause_click. destruct s. simpl. by rewrite negb_involutive.
  - done.
  - revert s. induction nows as [|now nows IH]; intros s Hp; [done|].
    simpl.
    pose proof (tick_simTime HelioVector Math_cos Math_sin now s) as Ht.
    destruct (tick_keeps HelioVector Math_cos Math_sin now s) as (_&_&_&Hp'&_).
    rewrite Hp in Ht.
    destruct (tick HelioVector Math_cos Math_sin now s) as [s'|s']; simpl in *.
    + rewrite IH by congruence. done.
    + done.
Qed.

(** X2.  The Now button sets the clock to the given date and resets
    every trail (count 0, nothing drawn); when the ephemeris answers
    everywhere it returns with one orbit line of 360 points for each of
    the 8 planets. *)
Theorem now_resets_trails_and_orbits (date : Q) (s : State) :
  let o := btnNow_click HelioVector date s in
  simTime (state_of o) = MakeTime date
  ∧ (∀ k, trails (state_of o) !! k = resetTrail <$> trails s !! k)
  ∧ (∀ tr, Trail.count (resetTrail tr) = 0 ∧ drawn (Trail.line (resetTrail tr)) = [])
  ∧ ((∀ b t, is_Some (HelioVector b t)) →
     returned o = true
     ∧ length (orbitLines (state_of o)) = 8
     ∧ Forall (λ line, length line.2 = 360) (orbitLines (state_of o))).
Proof.
  intros o. subst o. unfold btnNow_click. cbv zeta.
  destruct (buildOrbits_keeps HelioVector
              (simTime (resetTrails (set_simTime (MakeTime date) s)))
              (resetTrails (set_simTime (MakeTime date) s))) as [ol E].
  split_and!.
  - by rewrite E.
  - intros k. rewrite E. simpl. by rewrite lookup_fmap.
  - done.
  - intros Htotal. unfold buildOrbits.
    destruct (buildOrbits_loop_total bodies
                (simTime (resetTrails (set_simTime (MakeTime date) s))) Htotal
                (set_orbitLines [] (resetTrails (set_simTime (MakeTime date) s))))
      as (lines & -> & Hl & Hall).
    simpl. split_and!; [done|by rewrite Hl|done].
Qed.

(** X3.  From start-up on, whatever the events, the time scale is never
    zero. *)
Theorem timeScale_never_zero (date now : Q) (es : list Event) :
  Qeq_bool (timeScale (run es (state_of (main date now)))) 0 = false.
Proof.
  apply not_true_is_false. intros E. apply Qeq_bool_eq in E. revert E.
  apply run_timeScale.
  by rewrite (main_timeScale HelioVector Math_cos Math_sin date now).
Qed.

End Buttons.

(** * Further properties *)

Local Open Scope nat_scope.

Section Returned.

Variable HelioVector : Body -> AstroTime -> option Vector3.t.
Variables Math_cos Math_sin : Q -> Q.

Local Abbreviation tick := (tick HelioVector Math_cos Math_sin).

Lemma computeHelioPos_inv (b : Body) (t : AstroTime) (au : Vector3.t) :
  computeHelioPos HelioVector b t = Some au →
  ∃ v, HelioVector b t = Some v ∧ au = swap_axes v.
Proof.
  unfold computeHelioPos. destruct (HelioVector b t) as [v|]; [|done].
  intros [= <-]. by exists v.
Qed.

(** What the loop has done when it returns. *)
Lemma tick_bodies_returned (ps : list Planet.t) :
  ∀ (i : nat) (sel : option Vector3.t) (s : State)
    (sel' : option Vector3.t) (s' : State),
    NoDup (Planet.key <$> ps) →
    tick_bodies HelioVector ps i sel s = (sel', Returned s') →
    (∀ j p, ps !! j = Some p →
       ∃ v, HelioVector (Planet.body p) (simTime s) = Some v
         ∧ planetMeshes s' !! (i + j) = Some (scene_pos v)
         ∧ (showTrails s = true →
            ∃ tr, trails s !! Planet.key p = Some tr
              ∧ trails s' !! Planet.key p = Some (tick_trail (scene_pos v) tr)))
    ∧ (∀ j, j < i → planetMeshes s' !! j = planetMeshes s !! j)
    ∧ (∀ k, k ∉ Planet.key <$> ps → trails s' !! k = trails s !! k)
    ∧ (∀ q, selected s = Some q →
         (∀ p, p ∈ ps → Planet.key p = Planet.key q →
            sel' = computeHelioPos HelioVector (Planet.body p) (simTime s))
         ∧ ((∀ p, p ∈ ps → Planet.key p ≠ Planet.key q) → sel' = sel))
    ∧ (selected s = None → sel' = sel).
Proof.
  induction ps as [|p0 ps IH]; intros i sel s sel' s' Hnd Hrun.
  - injection Hrun as <- <-. split_and!; try done.
    intros q _. split; [|done]. intros p Hp. by apply elem_of_nil in Hp.
  - apply NoDup_cons in Hnd as [Hnotin Hnd]. cbn [tick_bodies] in Hrun.
    destruct (computeHelioPos HelioVector (Planet.body p0) (simTime s))
      as [au|] eqn:Hc; [|done].
    destruct (computeHelioPos_inv _ _ _ Hc) as (v & Hv & ->).
    destruct (planetMeshes s !! i) as [m|] eqn:Hm; [|done].
    change (multiplyScalar (swap_axes v) AU_TO_UNITS) with (scene_pos v) in Hrun.
    set (s1 := set_planetMeshes (<[i := scene_pos v]> (planetMeshes s)) s) in Hrun.
    change (showTrails s1) with (showTrails s) in Hrun.
    change (trails s1) with (trails s) in Hrun.
    set (sel1 := match selected s with
                 | Some sel0 =>
                     if (Planet.key sel0 =? Planet.key p0)%string
                     then Some (swap_axes v) else sel
                 | None => sel
                 end).
    assert (Hstep : ∃ s2,
              tick_bodies HelioVector ps (S i) sel1 s2 = (sel', Returned s')
              ∧ planetMeshes s2 = <[i := scene_pos v]> (planetMeshes s)
              ∧ simTime s2 = simTime s ∧ showTrails s2 = showTrails s
              ∧ selected s2 = selected s
              ∧ (showTrails s = true →
                 ∃ tr, trails s !! Planet.key p0 = Some tr
                   ∧ trails s2 !! Planet.key p0
                     = Some (tick_trail (scene_pos v) tr))
              ∧ (∀ k, k ≠ Planet.key p0 → trails s2 !! k = trails s !! k)).
    { destruct (showTrails s) eqn:Hshow.
      - destruct (trails s !! Planet.key p0) as [tr|] eqn:Htr; [|done].
        eexists. split; [exact Hrun|]. cbn. split_and!; try done.
        + intros _. exists tr. split; [done|]. apply lookup_insert_eq.
        + intros k Hk. by apply lookup_insert_ne.
      - exists s1. split; [exact Hrun|]. by split_and!. }
    clear Hrun.
    destruct Hstep as (s2 & Hrun & Hmesh2 & Htime2 & Hshow2 & Hsel2 & Hown & Hother).
    destruct (IH _ _ _ _ _ Hnd Hrun) as (Ha & Hb & Hk & Hq & Hn).
    assert (Hkeys : ∀ p, p ∈ ps → Planet.key p ≠ Planet.key p0).
    { intros p Hp E. apply Hnotin. rewrite <- E. apply list_elem_of_fmap. by exists p. }
    split_and!.
    + intros [|j] p Hj.
      * injection Hj as <-. exists v. rewrite Nat.add_0_r. split_and!; [done| |].
        -- rewrite Hb, Hmesh2 by lia. apply list_lookup_insert_eq.
           by eapply lookup_lt_Some.
        -- intros Hshow. destruct (Hown Hshow) as (tr & Htr & Htr2).
           exists tr. split; [done|]. by rewrite Hk.
      * change ((p0 :: ps) !! S j) with (ps !! j) in Hj.
        destruct (Ha j p Hj) as (w & Hw & Hmw & Htw).
        exists w. rewrite <- Htime2. split; [done|].
        replace (i + S j) with (S i + j) by lia. split; [done|].
        rewrite <- Hshow2. intros Hshow. destruct (Htw Hshow) as (tr & Htr & Htr').
        exists tr. split; [|done]. rewrite <- Htr. symmetry. apply Hother.
        apply Hkeys. by eapply list_elem_of_lookup_2.
    + intros j Hj. rewrite Hb, Hmesh2 by lia. apply list_lookup_insert_ne. lia.
    + intros k Hnot. rewrite fmap_cons in Hnot.
      apply not_elem_of_cons in Hnot as [Hk1 Hk2]. rewrite Hk by done. by apply Hother.
    + intros q Hsel. rewrite <- Hsel2 in Hsel. destruct (Hq q Hsel) as [Hq1 Hq2].
      rewrite Hsel2 in Hsel. split.
      * intros p Hp Hkey. apply elem_of_cons in Hp as [->|Hp].
        -- rewrite Hc, Hq2.
           ++ subst sel1. rewrite Hsel. by rewrite (proj2 (String.eqb_eq _ _) (eq_sym Hkey)).
           ++ intros p Hp E. apply (Hkeys p Hp). congruence.
        -- rewrite <- Htime2. by apply Hq1.
      * intros Hnone. rewrite Hq2.
        -- subst sel1. rewrite Hsel.
           assert (Planet.key q ≠ Planet.key p0) as Hne
             by (intros E; apply (Hnone p0); [left|done]).
           by rewrite (proj2 (String.eqb_neq _ _) Hne).
        -- intros p Hp. apply Hnone. by right.
    + intros Hsel. rewrite Hn by congruence. subst sel1. by rewrite Hsel.
Qed.

(** What a frame that returns has run. *)
Lemma tick_returned (now : Q) (s s' : State) :
  tick now s = Returned s' →
  ∃ sel s2,
    tick_bodies HelioVector bodies 0 None (tick_clock now s) = (sel, Returned s2)
    ∧ planetMeshes s' = planetMeshes s2 ∧ trails s' = trails s2
    ∧ simTime s' = simTime s2 ∧ selected s' = selected s2
    ∧ info s' = match selected s2, sel with
                | Some q, Some au => InfoPlanet q au (simTime s2)
                | _, _ => info s2
                end
    ∧ camera s' = camera (updateCamera Math_cos Math_sin s2)
    ∧ rendered s' = S (rendered s2) ∧ framePending s' = true.
Proof.
  unfold tick.
  destruct (tick_bodies HelioVector bodies 0 None (tick_clock now s))
    as [sel [s2|s2]]; [|done].
  cbn. intros Hrun. exists sel, s2.
  destruct (selected s2) eqn:E, sel; cbn in Hrun; rewrite ?E in Hrun;
    try destruct (date_valid (simTime s2)); cbn in Hrun; try done;
    injection Hrun as <-; cbn; rewrite ?E; by split_and!.
Qed.

(** X4.  A frame that returns leaves every planet's mesh at the scene
    position of its ephemeris vector at the new simulation time, paused
    or not; with trails shown every trail got one push of that position
    and with trails hidden no trail changed; one more picture was
    rendered and the next frame is requested. *)
Theorem returned_frame_places_meshes (now : Q) (s s' : State) :
  tick now s = Returned s' →
  (∀ i p, bodies !! i = Some p →
     ∃ v, HelioVector (Planet.body p) (simTime s') = Some v
       ∧ planetMeshes s' !! i = Some (scene_pos v)
       ∧ (showTrails s = true →
          ∃ tr, trails s !! Planet.key p = Some tr
            ∧ trails s' !! Planet.key p = Some (tick_trail (scene_pos v) tr))
       ∧ (showTrails s = false →
          trails s' !! Planet.key p = trails s !! Planet.key p))
  ∧ rendered s' = S (rendered s) ∧ framePending s' = true.
Proof.
  intros Hrun.
  destruct (tick_returned now s s' Hrun)
    as (sel & s2 & Hloop & Hm & Ht & Htime & _ & _ & _ & Hr & Hf).
  destruct (tick_bodies_returned bodies 0 None _ _ _ bodies_keys_NoDup Hloop)
    as (Ha & _).
  pose proof (tick_bodies_step HelioVector bodies 0 None (tick_clock now s)) as Hstep.
  rewrite Hloop in Hstep. destruct Hstep as ((_&_&_&_&_&F6&_&_&_&_&F11&_) & _ & _ & Hhid).
  simpl in F6, F11, Hhid.
  destruct (tick_clock_keeps now s) as (_&_&_&_&Ct&_&_&Cs&_).
  split_and!; [|by rewrite Hr, F11; unfold tick_clock; destruct (negb _)|done].
  intros i p Hp. destruct (Ha i p Hp) as (v & Hv & Hmesh & Htrail).
  exists v. rewrite Htime, F6, Hm, Ht. split_and!; try done.
  - rewrite Cs, Ct in Htrail. done.
  - intros Hshow. rewrite Hhid, Ct by congruence. done.
Qed.

(** X5.  The info panel.  A frame that returns with a planet of the
    catalog selected writes that planet's panel from its ephemeris vector
    (axes swapped) at the new simulation time; a frame with nothing
    selected leaves the panel as it is, however it ends.  A click that
    misses clears the selection and shows the hint at once; a click that
    hits changes the selection only, the panel is rewritten by the next
    frame. *)
Theorem info_panel_follows_selection (now : Q) (s : State) :
  (∀ s' q, tick now s = Returned s' → selected s = Some q → q ∈ bodies →
     ∃ v, HelioVector (Planet.body q) (simTime s') = Some v
       ∧ info s' = InfoPlanet q (swap_axes v) (simTime s')
       ∧ selected s' = Some q)
  ∧ (selected s = None → info (state_of (tick now s)) = info s)
  ∧ (selected (click None s) = None ∧ info (click None s) = InfoHint)
  ∧ (∀ p, selected (click (Some p) s) = Some p
          ∧ info (click (Some p) s) = info s).
Proof.
  split_and!; try done.
  - intros s' q Hrun Hsel Hin.
    destruct (tick_returned now s s' Hrun)
      as (sel & s2 & Hloop & _ & _ & Htime & Hsel' & Hinfo & _).
    destruct (tick_bodies_returned bodies 0 None _ _ _ bodies_keys_NoDup Hloop)
      as (Ha & _ & _ & Hq & _).
    pose proof (tick_bodies_step HelioVector bodies 0 None (tick_clock now s)) as Hstep.
    rewrite Hloop in Hstep. destruct Hstep as ((_&_&_&F4&_&F6&_) & _).
    simpl in F4, F6.
    destruct (tick_clock_keeps now s) as (_&Csel&_).
    assert (selected (tick_clock now s) = Some q) as Hsel1 by congruence.
    destruct (Hq q Hsel1) as [Hq1 _].
    apply list_elem_of_lookup in Hin as [j Hj].
    destruct (Ha j q Hj) as (v & Hv & _).
    exists v. rewrite Htime, F6. split; [done|].
    rewrite Hinfo, Hsel', F4, Hsel1, F6.
    rewrite (Hq1 q); [|by eapply list_elem_of_lookup_2|done].
    by rewrite (computeHelioPos_Some _ _ _ _ Hv).
  - intros Hsel. unfold tick.
    pose proof (tick_bodies_step HelioVector bodies 0 None (tick_clock now s)) as Hstep.
    destruct (tick_clock_keeps now s) as (_&Csel&_).
    assert (info (tick_clock now s) = info s) as Ci.
    { unfold tick_clock. by destruct (negb _). }
    destruct (tick_bodies HelioVector bodies 0 None (tick_clock now s))
      as [sel [s2|s2]]; destruct Hstep as ((_&_&_&F4&F5&_) & _); simpl in F4, F5.
    + cbn. rewrite F4, Csel, Hsel. cbn. congruence.
    + simpl. congruence.
Qed.

(** X15.  The date on the info panel.  A frame with a planet of the
    catalog selected, an ephemeris that answers and every mesh and trail
    in place returns when the date of the new simulation time is a valid
    Date, and only then.  When it is not, the frame throws while writing
    the panel: the meshes are already at the new positions, the trails
    got their push and the camera is placed, but the panel keeps what it
    showed, nothing is rendered and no next frame is requested. *)
Theorem invalid_date_stops_frame (now : Q) (s : State) (q : Planet.t) :
  scene_ok s = true → selected s = Some q → q ∈ bodies →
  (∀ p, p ∈ bodies →
     is_Some (HelioVector (Planet.body p) (simTime (tick_clock now s)))) →
  (returned (tick now s) = date_valid (simTime (tick_clock now s)))
  ∧ (date_valid (simTime (tick_clock now s)) = false →
     ∃ s', tick now s = Thrown s'
       ∧ simTime s' = simTime (tick_clock now s)
       ∧ (∀ i p v, bodies !! i = Some p →
            HelioVector (Planet.body p) (simTime s') = Some v →
            planetMeshes s' !! i = Some (scene_pos v)
            ∧ (showTrails s = true →
               trails s' !! Planet.key p
               = tick_trail (scene_pos v) <$> trails s !! Planet.key p))
       ∧ camera s' = camera (updateCamera Math_cos Math_sin s)
       ∧ info s' = info s ∧ rendered s' = rendered s
       ∧ framePending s' = framePending s).
Proof.
  intros Hok Hsel Hin Hhelio.
  destruct (tick_clock_keeps now s) as (Cc&Csel&_&Cm&Ct&_&_&Cs&_).
  assert (info (tick_clock now s) = info s
          ∧ rendered (tick_clock now s) = rendered s
          ∧ framePending (tick_clock now s) = framePending s) as (Ci & Cr & Cf).
  { unfold tick_clock. by destruct (negb _). }
  apply scene_ok_spec in Hok as [Hlen Htr].
  unfold tick. set (s1 := tick_clock now s) in *.
  destruct (tick_bodies_returns HelioVector bodies 0 None s1 bodies_keys_NoDup)
    as (sel' & s2 & Hrun & Hnew & _ & _).
  { exact Hhelio. }
  { rewrite Cm, Hlen. simpl. lia. }
  { intros _ p Hp. destruct (Htr p Hp) as (tr & E & _). by rewrite Ct, E. }
  destruct (tick_bodies_returned bodies 0 None _ _ _ bodies_keys_NoDup Hrun)
    as (_ & _ & _ & Hq & _).
  assert (selected s1 = Some q) as Hsel1 by congruence.
  destruct (Hq q Hsel1) as [Hq1 _].
  destruct (Hhelio q Hin) as [vq Hvq].
  assert (sel' = Some (swap_axes vq)) as ->.
  { rewrite (Hq1 q Hin eq_refl). by rewrite (computeHelioPos_Some _ _ _ _ Hvq). }
  pose proof (tick_bodies_step HelioVector bodies 0 None s1) as Hstep.
  rewrite Hrun in Hstep.
  destruct Hstep as ((F1&_&_&F4&F5&F6&_&_&_&_&F11&F12) & _).
  simpl in F1, F4, F5, F6, F11, F12.
  rewrite Hrun. cbn. rewrite F4, Hsel1. cbn. rewrite F6.
  destruct (date_valid (simTime s1)); cbn; [by split|].
  split; [done|]. intros _. eexists. split; [done|]. cbn.
  split_and!; try congruence.
  - intros i p v Hp Hv. rewrite F6 in Hv.
    destruct (Hnew i p v Hp Hv) as [Hmesh Htrail].
    split; [done|]. intros Hshow. rewrite <- Ct. apply Htrail. congruence.
Qed.

End Returned.

(** ** Trails before they wrap, and their size *)

Lemma drawn_holds (tr : Trail.t) (vs : list Vector3.t) :
  trail_ok tr = true → holds tr vs →
  drawn (Trail.line tr) = take (Nat.min (length vs) (Trail.count tr)) vs.
Proof.
  intros Hok (Harr & Hmax & _). unfold trail_ok in Hok.
  rewrite !andb_true_iff, !Nat.eqb_eq in Hok. destruct Hok as [[_ Hfst] Hsnd].
  unfold drawn. destruct (Line.drawRange _) as [a b]. simpl in Hfst, Hsnd. subst a b.
  rewrite Harr, Hmax. apply omap_lookup_seq, vertex_flat.
Qed.

(** A push into a trail that is not full yet appends to the polyline. *)
Lemma tick_trail_appends (tr : Trail.t) (pos : Vector3.t) :
  trail_ok tr = true → Trail.count tr < Trail.maxPts tr →
  drawn (Trail.line (tick_trail pos tr)) = drawn (Trail.line tr) ++ [pos].
Proof.
  intros Hok Hlt. destruct (trail_ok_holds _ Hok) as (vs & H).
  rewrite (drawn_holds tr vs Hok H).
  assert (trail_ok (tick_trail pos tr) = true) as Hok'
    by exact (pushes_ok [pos] tr Hok).
  rewrite (drawn_holds _ _ Hok' (tick_trail_holds' _ _ pos H)).
  destruct H as (_ & Hmax & _). rewrite Hmax in Hlt.
  rewrite length_insert. change (Trail.count (tick_trail pos tr)) with (S (Trail.count tr)).
  rewrite Nat.mod_small, !Nat.min_r by lia.
  rewrite insert_take_drop by done.
  rewrite take_app_ge by (rewrite length_take; lia).
  rewrite length_take, Nat.min_l by lia.
  replace (S (Trail.count tr) - Trail.count tr) with 1 by lia. done.
Qed.

(** X6.  Until a trail is full, pushes only append: after pushes that
    bring [count] to at most [maxPts], the polyline is the old polyline
    followed by the pushed positions in push order; in particular a reset
    trail draws exactly what was pushed since. *)
Theorem trail_appends_until_full (tr : Trail.t) (ps : list Vector3.t) :
  trail_ok tr = true →
  Trail.count tr + length ps ≤ Trail.maxPts tr →
  drawn (Trail.line (pushes ps tr)) = drawn (Trail.line tr) ++ ps
  ∧ drawn (Trail.line (pushes ps (resetTrail tr))) = ps.
Proof.
  assert (Happ : ∀ ps tr, trail_ok tr = true →
            Trail.count tr + length ps ≤ Trail.maxPts tr →
            drawn (Trail.line (pushes ps tr)) = drawn (Trail.line tr) ++ ps).
  { clear. intros ps. induction ps as [|p ps IH]; intros tr Hok Hlen.
    - by rewrite app_nil_r.
    - simpl in Hlen. change (pushes (p :: ps) tr) with (pushes ps (tick_trail p tr)).
      rewrite IH.
      + rewrite tick_trail_appends by (done || lia). by rewrite <- app_assoc.
      + by apply (pushes_ok [p]).
      + change (Trail.count (tick_trail p tr)) with (S (Trail.count tr)).
        change (Trail.maxPts (tick_trail p tr)) with (Trail.maxPts tr). lia. }
  intros Hok Hlen. split; [by apply Happ|].
  rewrite Happ.
  - destruct (trail_ok_holds _ Hok) as (vs & H).
    by rewrite (drawn_holds _ vs (trail_ok_reset _ Hok) H), Nat.min_0_r.
  - by apply trail_ok_reset.
  - change (Trail.count (resetTrail tr)) with 0.
    change (Trail.maxPts (resetTrail tr)) with (Trail.maxPts tr). lia.
Qed.

Lemma trail_sized_push (b : bool) (pos : Vector3.t) (tr : Trail.t) :
  trail_sized b tr = true → trail_sized b (tick_trail pos tr) = true.
Proof.
  unfold trail_sized, tick_trail.
  cbn [Trail.line Trail.maxPts Trail.count Line.array Line.drawRange
       Line.visible fst snd].
  rewrite !andb_true_iff, !Nat.eqb_eq, !Nat.leb_le, !length_insert.
  intros [[[Hm Hl] _] Hv]. split_and!; [done|done| |done].
  rewrite Hm. apply Nat.le_min_l.
Qed.

Lemma trail_sized_pushes (b : bool) (ps : list Vector3.t) (tr : Trail.t) :
  trail_sized b tr = true → trail_sized b (pushes ps tr) = true.
Proof.
  revert tr. induction ps as [|p ps IH]; intros tr H; [done|].
  by apply IH, trail_sized_push.
Qed.

Lemma trail_sized_reset (b : bool) (tr : Trail.t) :
  trail_sized b tr = true → trail_sized b (resetTrail tr) = true.
Proof.
  unfold trail_sized, resetTrail.
  cbn [Trail.line Trail.maxPts Trail.count Line.array Line.drawRange
       Line.visible fst snd].
  rewrite !andb_true_iff. tauto.
Qed.

Lemma trail_sized_setVisible (b b' : bool) (tr : Trail.t) :
  trail_sized b tr = true → trail_sized b' (setVisible b' tr) = true.
Proof.
  unfold trail_sized, setVisible.
  cbn [Trail.line Trail.maxPts Trail.count Line.array Line.drawRange
       Line.visible fst snd].
  rewrite !andb_true_iff, eqb_reflx. tauto.
Qed.

Lemma trails_sized_fmap (f : Trail.t → Trail.t) (b : bool) (s s' : State) :
  (∀ tr, trail_sized (showTrails s) tr = true → trail_sized b (f tr) = true) →
  showTrails s' = b → trails s' = f <$> trails s →
  trails_sized s → trails_sized s'.
Proof.
  intros Hf Hb Ht H k. specialize (H k). rewrite Ht, lookup_fmap, Hb.
  destruct (trails s !! k) as [tr|]; simpl; [|done].
  destruct H as [Hin Hs]. split; [done|by apply Hf].
Qed.

Lemma length_omap_le {A B} (f : A → option B) (l : list A) :
  length (omap f l) ≤ length l.
Proof.
  induction l as [|a l IH]; [done|].
  change (omap f (a :: l))
    with (match f a with Some y => y :: omap f l | None => omap f l end).
  destruct (f a); simpl; lia.
Qed.

Section Sized.

Variable HelioVector : Body -> AstroTime -> option Vector3.t.
Variables Math_cos Math_sin : Q -> Q.

Local Abbreviation tick := (tick HelioVector Math_cos Math_sin).
Local Abbreviation handle := (handle HelioVector Math_cos Math_sin).
Local Abbreviation run := (run HelioVector Math_cos Math_sin).
Local Abbreviation main := (main HelioVector Math_cos Math_sin).

Lemma handle_trails_sized (e : Event) (s : State) :
  trails_sized s → trails_sized (state_of (handle e s)).
Proof.
  intros H. destruct e; simpl; try done.
  - unfold pointermove. by repeat case_match.
  - by destruct hit.
  - destruct (buildOrbits_keeps HelioVector
                (simTime (resetTrails (set_simTime (MakeTime date) s)))
                (resetTrails (set_simTime (MakeTime date) s))) as [ol E].
    unfold btnNow_click. rewrite E.
    eapply (trails_sized_fmap resetTrail (showTrails s)); [|done|done|exact H].
    intros tr. apply trail_sized_reset.
  - eapply (trails_sized_fmap (setVisible (negb (showTrails s))));
      [|done|done|exact H].
    intros tr. apply trail_sized_setVisible.
  - destruct (framePending s); [|done].
    destruct (tick_keeps HelioVector Math_cos Math_sin now (set_framePending false s))
      as (_&_&_&_&_&Hshow&_&_&_&T&_).
    intros k. specialize (H k). destruct (T k) as [ps ->]. rewrite Hshow.
    simpl in *. destruct (trails s !! k) as [tr|]; simpl; [|done].
    destruct H as [Hin Hs]. split; [done|by apply trail_sized_pushes].
Qed.

Lemma main_trails_sized (date now : Q) : trails_sized (state_of (main date now)).
Proof.
  destruct (main_state HelioVector Math_cos Math_sin date now) as (ol & b & ->).
  intros k. cbn.
  repeat (rewrite lookup_insert; case_decide;
          [subst k; split; [apply (bool_decide_unpack _); by vm_compute|done]|]).
  rewrite lookup_empty. intros Hin.
  repeat (apply elem_of_cons in Hin as [Hin|Hin]; [by subst k|]).
  by apply elem_of_nil in Hin.
Qed.

(** X7.  In every store the events can reach, the trails map has exactly
    one entry per catalog planet; each has capacity 220, an array of 660
    numbers and a draw range of at most 220 points, however many frames
    have run, and its line is visible exactly when [showTrails] is set. *)
Theorem trail_storage_is_fixed (date now : Q) (es : list Event) (k : string) :
  let s := run es (state_of (main date now)) in
  (is_Some (trails s !! k) ↔ k ∈ Planet.key <$> bodies)
  ∧ (∀ tr, trails s !! k = Some tr →
       Trail.maxPts tr = 220
       ∧ length (Line.array (Trail.line tr)) = 660
       ∧ length (drawn (Trail.line tr)) ≤ 220
       ∧ Line.visible (Trail.line tr) = showTrails s).
Proof.
  intros s.
  assert (trails_sized s) as H.
  { subst s. generalize (main_trails_sized date now).
    generalize (state_of (main date now)).
    induction es as [|e es IH]; intros s0 H0; [done|].
    apply IH, handle_trails_sized, H0. }
  specialize (H k). destruct (trails s !! k) as [tr|].
  - destruct H as [Hin Hs]. split; [by split; [|eexists]|].
    intros tr' [= <-]. unfold trail_sized in Hs.
    rewrite !andb_true_iff, !Nat.eqb_eq, Nat.leb_le in Hs.
    destruct Hs as [[[Hm Hl] Hd] Hv]. apply eqb_prop in Hv.
    split_and!; try done.
    unfold drawn. etrans; [apply length_omap_le|]. by rewrite length_seq.
  - split; [|done]. split; [by intros [? ?]|done].
Qed.

(** ** A loop that has stopped *)

Lemma tick_thrown_keeps (now : Q) (s s' : State) :
  tick now s = Thrown s' →
  framePending s' = framePending s ∧ rendered s' = rendered s
  ∧ info s' = info s.
Proof.
  unfold tick.
  pose proof (tick_bodies_step HelioVector bodies 0 None (tick_clock now s)) as Hstep.
  assert (info (tick_clock now s) = info s
          ∧ rendered (tick_clock now s) = rendered s
          ∧ framePending (tick_clock now s) = framePending s) as (C1 & C2 & C3).
  { unfold tick_clock. by destruct (negb _). }
  destruct (tick_bodies HelioVector bodies 0 None (tick_clock now s))
    as [sel [s2|s2]];
    destruct Hstep as ((_&_&_&_&F5&_&_&_&_&_&F11&F12) & _); simpl in F5, F11, F12.
  - cbn. destruct (selected s2), sel; cbn; try done.
    destruct (date_valid (simTime s2)); cbn; [done|].
    intros [= <-]. cbn. split_and!; congruence.
  - intros [= <-]. split_and!; congruence.
Qed.

Lemma handle_stopped (e : Event) (s : State) :
  framePending s = false →
  let s' := state_of (handle e s) in
  framePending s' = false ∧ rendered s' = rendered s
  ∧ planetMeshes s' = planetMeshes s ∧ camera s' = camera s.
Proof.
  intros Hf. destruct e; simpl; try done.
  - unfold pointermove. by repeat case_match.
  - by destruct hit.
  - destruct (buildOrbits_keeps HelioVector
                (simTime (resetTrails (set_simTime (MakeTime date) s)))
                (resetTrails (set_simTime (MakeTime date) s))) as [ol E].
    unfold btnNow_click. by rewrite E.
  - by rewrite Hf.
Qed.

(** X8.  A frame that throws, or a start-up that throws while building
    the orbits, leaves no animation frame requested; and once none is
    requested no event brings the loop back: whatever the later events
    (frames included), nothing more is rendered and the meshes and the
    camera stay as they are. *)
Theorem stopped_loop_never_resumes (s : State) :
  (∀ now, returned (handle (AnimationFrame now) s) = false →
     framePending (state_of (handle (AnimationFrame now) s)) = false)
  ∧ (∀ date now, returned (main date now) = false →
       framePending (state_of (main date now)) = false)
  ∧ (framePending s = false →
     ∀ es, framePending (run es s) = false
           ∧ rendered (run es s) = rendered s
           ∧ planetMeshes (run es s) = planetMeshes s
           ∧ camera (run es s) = camera s).
Proof.
  split_and!.
  - intros now. simpl. destruct (framePending s) eqn:Hf; [|done].
    destruct (tick now (set_framePending false s)) as [s'|s'] eqn:Hrun; [done|].
    intros _. simpl. by destruct (tick_thrown_keeps _ _ _ Hrun) as (-> & _).
  - intros date now. unfold main.
    destruct (buildOrbits_keeps HelioVector
                (simTime (updateCamera Math_cos Math_sin (declared date now)))
                (updateCamera Math_cos Math_sin (declared date now))) as [ol E].
    destruct (buildOrbits _ _ _) as [s'|s']; [done|]. simpl in *. by subst s'.
  - intros Hf es. revert s Hf. induction es as [|e es IH]; intros s Hf; [done|].
    destruct (handle_stopped e s Hf) as (H1 & H2 & H3 & H4).
    destruct (IH _ H1) as (I1 & I2 & I3 & I4).
    simpl. split_and!; congruence.
Qed.

End Sized.

(** ** The clock over several frames *)

Local Open Scope Q_scope.

Section ClockRuns.

Variable HelioVector : Body -> AstroTime -> option Vector3.t.
Variables Math_cos Math_sin : Q -> Q.

Local Abbreviation tick := (tick HelioVector Math_cos Math_sin).
Local Abbreviation frames := (frames HelioVector Math_cos Math_sin).

Lemma tick_unpaused (now : Q) (s : State) :
  paused s = false →
  let s' := state_of (tick now s) in
  ut (simTime s')
  == ut (simTime s) + (Math_min 0.05 ((now - last s) / 1000) * timeScale s) / 86400
  ∧ paused s' = false ∧ timeScale s' = timeScale s ∧ last s' = now.
Proof.
  intros Hp. pose proof (tick_simTime HelioVector Math_cos Math_sin now s) as Ht.
  destruct (tick_keeps HelioVector Math_cos Math_sin now s)
    as (_&_&_&Hp'&Hs&_&Hl&_).
  rewrite Hp in Ht. cbv zeta. rewrite Ht. split_and!; try done; congruence.
Qed.

(** X9.  While every frame follows the one before by at most 50 ms
    (20 frames a second or more) and the clock is not paused, the
    simulation keeps time with the frames exactly: after any number of
    them the simulation time has advanced by the time between the first
    [last] and the last time stamp, times the scale (in days), also when
    the last of them throws. *)
Theorem clock_keeps_pace (nows : list Q) (s : State) :
  paused s = false → paced (last s) nows →
  let s' := state_of (frames nows s) in
  ut (simTime s')
  == ut (simTime s) + ((last s' - last s) / 1000 * timeScale s) / 86400
  ∧ timeScale s' = timeScale s ∧ paused s' = false.
Proof.
  revert s. induction nows as [|now nows IH]; intros s Hp Hpaced.
  - simpl. split; [|done]. unfold Qdiv. ring.
  - destruct Hpaced as [Hd Hpaced].
    destruct (tick_unpaused now s Hp) as (Ht & Hp1 & Hs1 & Hl1).
    assert (Math_min 0.05 ((now - last s) / 1000) == (now - last s) / 1000) as Hmin.
    { unfold Math_min.
      destruct (Q.min_spec 0.05 ((now - last s) / 1000)) as [[Hlt ->]|[_ ->]];
        [|reflexivity].
      rewrite Qdiv_1000 in *. lra. }
    rewrite Hmin in Ht.
    simpl frames.
    destruct (tick now s) as [s1|s1]; simpl in Ht, Hp1, Hs1, Hl1.
    + rewrite <- Hl1 in Hpaced. destruct (IH s1 Hp1 Hpaced) as (Ht' & Hs' & Hp').
      cbv zeta in *. split_and!; [|congruence|done].
      rewrite Ht', Ht, Hs1, Hl1. unfold Qdiv. ring.
    + simpl. split_and!; [|done|done]. rewrite Ht, Hl1. reflexivity.
Qed.

(** X10.  The direction of time.  An unpaused frame whose time stamp is
    not before [last] never moves the clock backward when the scale is
    positive and never forward when it is negative. *)
Theorem clock_follows_scale_sign (now : Q) (s : State) :
  paused s = false → last s <= now →
  let s' := state_of (tick now s) in
  (0 <= timeScale s → ut (simTime s) <= ut (simTime s'))
  ∧ (timeScale s <= 0 → ut (simTime s') <= ut (simTime s)).
Proof.
  intros Hp Hle. destruct (tick_unpaused now s Hp) as (Ht & _).
  cbv zeta in *. rewrite Ht, Qdiv_86400.
  set (dt := Math_min 0.05 ((now - last s) / 1000)).
  assert (0 <= dt) as Hdt.
  { subst dt. unfold Math_min.
    destruct (Q.min_spec 0.05 ((now - last s) / 1000)) as [[_ ->]|[_ ->]]; [lra|].
    rewrite Qdiv_1000. lra. }
  split; intros Hs.
  - pose proof (Qmult_le_0_compat _ _ Hdt Hs). lra.
  - assert (0 <= dt * - timeScale s) as H by (apply Qmult_le_0_compat; lra).
    assert (dt * - timeScale s == - (dt * timeScale s)) as E by ring.
    rewrite E in H. lra.
Qed.

End ClockRuns.

(** ** Drags *)

Lemma last_cons_default {A} (a d : A) (l : list A) :
  List.last (a :: l) d = List.last l a.
Proof.
  revert a d. induction l as [|b l IH]; intros a d; [done|].
  change (List.last (a :: b :: l) d) with (List.last (b :: l) d).
  by rewrite (IH b d), (IH b a).
Qed.

Lemma moves_orbit (r : Vector3.t) (path : list (Q * Q)) :
  ∀ s,
    Controls.isDragging (controls s) = true →
    Controls.isRightDragging (controls s) = false →
    let c := controls s in
    let c' := controls (moves r path s) in
    let e := path_end (Controls.lastX c) (Controls.lastY c) path in
    Controls.yaw c' == Controls.yaw c - (fst e - Controls.lastX c) * 0.005
    ∧ Controls.lastX c' = fst e ∧ Controls.lastY c' = snd e
    ∧ Controls.distance c' = Controls.distance c
    ∧ Controls.target c' = Controls.target c.
Proof.
  induction path as [|[x y] path IH]; intros s Hd Hr.
  - simpl. split_and!; try done. ring.
  - cbv zeta. unfold path_end. rewrite last_cons_default.
    change (moves r ((x, y) :: path) s) with (moves r path (pointermove x y r s)).
    assert (controls (pointermove x y r s)
            = Controls.mk true false x y
                (Controls.yaw (controls s) - (x - Controls.lastX (controls s)) * 0.005)
                (Math_max (-1.25)
                   (Math_min 1.25
                      (Controls.pitch (controls s)
                       - (y - Controls.lastY (controls s)) * 0.005)))
                (Controls.distance (controls s)) (Controls.target (controls s)))
      as Hc.
    { unfold pointermove. rewrite Hd, Hr. simpl. by rewrite ?Hd, ?Hr. }
    destruct (IH (pointermove x y r s)) as (Hy & Hx & Hy' & Hdist & Htar);
      [by rewrite Hc..|].
    rewrite Hc in Hy, Hx, Hy', Hdist, Htar. simpl in Hy, Hx, Hy', Hdist, Htar.
    unfold path_end in *. split_and!; try done.
    rewrite Hy. ring.
Qed.

Lemma moves_pan (r : Vector3.t) (path : list (Q * Q)) :
  ∀ s,
    Controls.isDragging (controls s) = true →
    Controls.isRightDragging (controls s) = true →
    let c := controls s in
    let c' := controls (moves r path s) in
    let e := path_end (Controls.lastX c) (Controls.lastY c) path in
    let panSpeed := Controls.distance c / 1200 in
    same_point (Controls.target c')
      (addScaledVector
         (addScaledVector (Controls.target c) r
            (- (fst e - Controls.lastX c) * panSpeed))
         (Vector3.mk 0 1 0) ((snd e - Controls.lastY c) * panSpeed))
    ∧ Controls.lastX c' = fst e ∧ Controls.lastY c' = snd e
    ∧ Controls.distance c' = Controls.distance c
    ∧ Controls.yaw c' = Controls.yaw c ∧ Controls.pitch c' = Controls.pitch c.
Proof.
  induction path as [|[x y] path IH]; intros s Hd Hr.
  - cbv zeta. unfold path_end, moves, same_point, addScaledVector, Qdiv.
    cbn [foldl List.last fst snd Vector3.x Vector3.y Vector3.z].
    split_and!; try done; ring.
  - cbv zeta. unfold path_end. rewrite last_cons_default.
    change (moves r ((x, y) :: path) s) with (moves r path (pointermove x y r s)).
    assert (controls (pointermove x y r s)
            = Controls.mk true true x y
                (Controls.yaw (controls s)) (Controls.pitch (controls s))
                (Controls.distance (controls s))
                (addScaledVector
                   (addScaledVector (Controls.target (controls s)) r
                      (- (x - Controls.lastX (controls s))
                       * (Controls.distance (controls s) / 1200)))
                   (Vector3.mk 0 1 0)
                   ((y - Controls.lastY (controls s))
                    * (Controls.distance (controls s) / 1200))))
      as Hc.
    { unfold pointermove. rewrite Hd, Hr. simpl. by rewrite ?Hd, ?Hr. }
    destruct (IH (pointermove x y r s)) as (Ht & Hx & Hy' & Hdist & Hyaw & Hpitch);
      [by rewrite Hc..|].
    rewrite Hc in Ht, Hx, Hy', Hdist, Hyaw, Hpitch.
    simpl in Ht, Hx, Hy', Hdist, Hyaw, Hpitch.
    unfold path_end in *. split_and!; try done.
    destruct Ht as (T1 & T2 & T3). revert T1 T2 T3.
    unfold same_point, addScaledVector, Qdiv.
    cbn [Vector3.x Vector3.y Vector3.z]. intros T1 T2 T3.
    rewrite T1, T2, T3. split_and!; ring.
Qed.

(** X11.  Drags.  After a button press at [(x0, y0)] the pointer moves
    along any path, the camera's right vector staying [r] (no frame in
    between).  With a button other than the right one the yaw depends
    only on where the path ends: [yaw - (x - x0) * 0.005]; distance and
    target are untouched.  With the right button the target depends only
    on where the path ends: it has moved by [-(x - x0) * distance / 1200]
    along [r] and by [(y - y0) * distance / 1200] upwards, so a path back
    to its start leaves the target in place; yaw, pitch and distance are
    untouched.  After the button is released, moves change nothing. *)
Theorem drag_depends_on_path_end (button : Z) (x0 y0 : Q) (r : Vector3.t)
    (path : list (Q * Q)) (s : State) :
  let c := controls s in
  let c' := controls (moves r path (pointerdown button x0 y0 s)) in
  let e := path_end x0 y0 path in
  let panSpeed := Controls.distance c / 1200 in
  (button ≠ 2%Z →
     Controls.yaw c' == Controls.yaw c - (fst e - x0) * 0.005
     ∧ Controls.distance c' = Controls.distance c
     ∧ Controls.target c' = Controls.target c)
  ∧ (button = 2%Z →
     same_point (Controls.target c')
       (addScaledVector
          (addScaledVector (Controls.target c) r (- (fst e - x0) * panSpeed))
          (Vector3.mk 0 1 0) ((snd e - y0) * panSpeed))
     ∧ (e = (x0, y0) → same_point (Controls.target c') (Controls.target c))
     ∧ Controls.yaw c' = Controls.yaw c ∧ Controls.pitch c' = Controls.pitch c
     ∧ Controls.distance c' = Controls.distance c)
  ∧ moves r path (pointerup s) = pointerup s.
Proof.
  cbv zeta. split_and!.
  - intros Hb.
    destruct (moves_orbit r path (pointerdown button x0 y0 s)) as (Hy & _ & _ & Hd & Ht).
    + done.
    + simpl. by apply Z.eqb_neq.
    + done.
  - intros ->.
    destruct (moves_pan r path (pointerdown 2 x0 y0 s)) as (Ht & _ & _ & Hd & Hy & Hp);
      [done..|].
    simpl in Ht, Hd, Hy, Hp. split_and!; try done.
    intros E. rewrite E in Ht. destruct Ht as (T1 & T2 & T3). revert T1 T2 T3.
    unfold same_point, addScaledVector, Qdiv.
    cbn [Vector3.x Vector3.y Vector3.z fst snd]. intros T1 T2 T3.
    rewrite T1, T2, T3. split_and!; ring.
  - induction path as [|[x y] path IH]; [done|].
    change (moves r ((x, y) :: path) (pointerup s))
      with (moves r path (pointermove x y r (pointerup s))).
    by change (pointermove x y r (pointerup s)) with (pointerup s).
Qed.

(** ** The camera pose *)

Section Pose.

Variable HelioVector : Body -> AstroTime -> option Vector3.t.
Variables Math_cos Math_sin : Q -> Q.
Hypothesis Math_pythagoras :
  ∀ a, Math_cos a * Math_cos a + Math_sin a * Math_sin a == 1.

Local Abbreviation tick := (tick HelioVector Math_cos Math_sin).
Local Abbreviation updateCamera := (updateCamera Math_cos Math_sin).

Lemma updateCamera_sphere (s : State) :
  dist2 (Camera.position (camera (updateCamera s))) (Controls.target (controls s))
  == Controls.distance (controls s) * Controls.distance (controls s).
Proof.
  unfold dist2. simpl.
  set (d := Controls.distance (controls s)).
  pose proof (Math_pythagoras (Controls.pitch (controls s))) as H1.
  pose proof (Math_pythagoras (Controls.yaw (controls s))) as H2.
  set (c1 := Math_cos (Controls.pitch (controls s))) in *.
  set (s1 := Math_sin (Controls.pitch (controls s))) in *.
  set (c2 := Math_cos (Controls.yaw (controls s))) in *.
  set (s2 := Math_sin (Controls.yaw (controls s))) in *.
  transitivity (d * d * (c1 * c1 * (c2 * c2 + s2 * s2) + s1 * s1)); [ring|].
  rewrite H2. transitivity (d * d * (c1 * c1 + s1 * s1)); [ring|].
  rewrite H1. ring.
Qed.

(** X12.  The camera pose.  [updateCamera] looks at the target from a
    point whose distance to the target is [distance] (squares compared),
    for any [Math.cos] and [Math.sin] with [cos^2 + sin^2 = 1]; it
    changes nothing but the camera and doing it twice changes nothing
    more.  After a frame that returns the camera has this pose for the
    controls of that moment. *)
Theorem camera_pose_on_sphere (s : State) :
  let s1 := updateCamera s in
  dist2 (Camera.position (camera s1)) (Controls.target (controls s))
  == Controls.distance (controls s) * Controls.distance (controls s)
  ∧ Camera.lookAt (camera s1) = Controls.target (controls s)
  ∧ s1 = set_camera (camera s1) s
  ∧ updateCamera s1 = s1
  ∧ (∀ now s', tick now s = Returned s' →
       Camera.lookAt (camera s') = Controls.target (controls s')
       ∧ dist2 (Camera.position (camera s')) (Controls.target (controls s'))
         == Controls.distance (controls s') * Controls.distance (controls s')).
Proof.
  cbv zeta. split_and!; try done.
  - apply updateCamera_sphere.
  - intros now s' Hrun.
    destruct (tick_returned HelioVector Math_cos Math_sin now s s' Hrun)
      as (sel & s2 & Hloop & _ & _ & _ & _ & _ & Hcam & _).
    destruct (tick_keeps HelioVector Math_cos Math_sin now s) as (Hc & _).
    rewrite Hrun in Hc. simpl in Hc.
    pose proof (tick_bodies_step HelioVector bodies 0 None (tick_clock now s)) as Hstep.
    rewrite Hloop in Hstep. destruct Hstep as ((F1 & _) & _). simpl in F1.
    destruct (tick_clock_keeps now s) as (C1 & _).
    assert (controls s2 = controls s') as E by congruence.
    rewrite Hcam, <- E. split; [done|]. apply updateCamera_sphere.
Qed.

End Pose.

(** ** Orbit lines *)

Local Open Scope nat_scope.

Section Orbits.

Variable HelioVector : Body -> AstroTime -> option Vector3.t.
Variables Math_cos Math_sin : Q -> Q.

Local Abbreviation run := (run HelioVector Math_cos Math_sin).
Local Abbreviation main := (main HelioVector Math_cos Math_sin).
Local Abbreviation handle := (handle HelioVector Math_cos Math_sin).

Lemma buildOrbits_pts_Some (body : Body) (time : AstroTime) (n : nat) :
  ∀ i pts,
    buildOrbits_pts HelioVector body time 360 i n = Some pts →
    length pts = n
    ∧ ∀ j, j < n →
        ∃ v, HelioVector body (orbit_sample time (i + j)) = Some v
          ∧ pts !! j = Some (scene_pos v).
Proof.
  induction n as [|n IH]; intros i pts Hpts.
  - injection Hpts as <-. split; [done|]. intros j Hj. lia.
  - cbn [buildOrbits_pts] in Hpts. cbv zeta in Hpts.
    fold (orbit_sample time i) in Hpts.
    destruct (computeHelioPos HelioVector body (orbit_sample time i))
      as [au|] eqn:Hc; [|done].
    destruct (computeHelioPos_inv _ _ _ _ Hc) as (v & Hv & ->).
    destruct (buildOrbits_pts HelioVector body time 360 (S i) n)
      as [rest|] eqn:Hrest; [|done].
    injection Hpts as <-. destruct (IH _ _ Hrest) as [Hlen Hall].
    split; [simpl; by rewrite Hlen|].
    intros [|j] Hj.
    + exists v. by rewrite Nat.add_0_r.
    + destruct (Hall j) as (w & Hw & Hj'); [lia|].
      exists w. replace (i + S j) with (S i + j) by lia. done.
Qed.

Lemma buildOrbits_pts_None (body : Body) (time : AstroTime) (n : nat) :
  ∀ i,
    buildOrbits_pts HelioVector body time 360 i n = None →
    ∃ j, j < n ∧ HelioVector body (orbit_sample time (i + j)) = None.
Proof.
  induction n as [|n IH]; intros i Hpts; [done|].
  cbn [buildOrbits_pts] in Hpts. cbv zeta in Hpts.
  fold (orbit_sample time i) in Hpts.
  destruct (HelioVector body (orbit_sample time i)) as [v|] eqn:Hv.
  - rewrite (computeHelioPos_Some _ _ _ _ Hv) in Hpts.
    destruct (buildOrbits_pts HelioVector body time 360 (S i) n)
      as [rest|] eqn:Hrest; [done|].
    destruct (IH _ Hrest) as (j & Hj & Hnone).
    exists (S j). split; [lia|]. by replace (i + S j) with (S i + j) by lia.
  - exists 0. split; [lia|]. by rewrite Nat.add_0_r.
Qed.

(** What the loop of [buildOrbits] has appended, however it ends. *)
Lemma buildOrbits_loop_lines (ps : list Planet.t) (time : AstroTime) :
  ∀ s, ∃ lines,
    state_of (buildOrbits_loop HelioVector ps time s)
    = set_orbitLines (orbitLines s ++ lines) s
    ∧ (∀ j line, lines !! j = Some line →
         ∃ p, ps !! j = Some p
           ∧ fst line = (Planet.key p +:+ "-orbit")%string
           ∧ length (snd line) = 360
           ∧ ∀ i, i < 360 →
               ∃ v, HelioVector (Planet.body p) (orbit_sample time i) = Some v
                 ∧ snd line !! i = Some (scene_pos v))
    ∧ match buildOrbits_loop HelioVector ps time s with
      | Returned _ => length lines = length ps
      | Thrown _ =>
          ∃ p i, ps !! length lines = Some p ∧ i < 360
            ∧ HelioVector (Planet.body p) (orbit_sample time i) = None
      end.
Proof.
  induction ps as [|p ps IH]; intros s.
  - exists []. simpl. rewrite app_nil_r. split_and!; [by destruct s| |done].
    intros j line Hj. by rewrite lookup_nil in Hj.
  - cbn [buildOrbits_loop]. cbv zeta.
    destruct (buildOrbits_pts HelioVector (Planet.body p) time 360 0 360)
      as [pts|] eqn:Hpts.
    + destruct (buildOrbits_pts_Some _ _ _ _ _ Hpts) as [Hlen Hall].
      destruct (IH (set_orbitLines
                      (orbitLines s ++ [((Planet.key p +:+ "-orbit")%string, pts)]) s))
        as (lines & E & Hlines & Hend).
      exists (((Planet.key p +:+ "-orbit")%string, pts) :: lines).
      split_and!.
      * rewrite E. simpl. by rewrite <- app_assoc.
      * intros [|j] line Hj.
        -- injection Hj as <-. exists p. by split_and!.
        -- by apply Hlines.
      * destruct (buildOrbits_loop _ _ _ _); simpl; [by rewrite Hend|done].
    + destruct (buildOrbits_pts_None _ _ _ _ Hpts) as (i & Hi & Hnone).
      exists []. simpl. rewrite app_nil_r. split_and!; [by destruct s| |].
      * intros j line Hj. by rewrite lookup_nil in Hj.
      * by exists p, i.
Qed.

(** X13.  [buildOrbits] changes only the list of orbit lines, which it
    empties first.  When it returns, the list holds one line per catalog
    planet, in catalog order, named [<key>-orbit]; each has 360 points
    and point [i] is the scene position of the planet's ephemeris vector
    at [i/360 * 365.25] days after the given time.  When the ephemeris
    throws, the list holds the lines of the planets before the failing
    one only: fewer than 8, the earlier lines being lost. *)
Theorem orbit_lines_sampled (time : AstroTime) (s : State) :
  let o := buildOrbits HelioVector time s in
  let lines := orbitLines (state_of o) in
  state_of o = set_orbitLines lines s
  ∧ (∀ j line, lines !! j = Some line →
       ∃ p, bodies !! j = Some p
         ∧ fst line = (Planet.key p +:+ "-orbit")%string
         ∧ length (snd line) = 360
         ∧ ∀ i, i < 360 →
             ∃ v, HelioVector (Planet.body p) (orbit_sample time i) = Some v
               ∧ snd line !! i = Some (scene_pos v))
  ∧ (returned o = true → length lines = 8)
  ∧ (returned o = false →
     length lines < 8
     ∧ ∃ p i, bodies !! length lines = Some p ∧ i < 360
         ∧ HelioVector (Planet.body p) (orbit_sample time i) = None).
Proof.
  cbv zeta. unfold buildOrbits.
  destruct (buildOrbits_loop_lines bodies time (set_orbitLines [] s))
    as (lines & E & Hlines & Hend).
  rewrite E. cbn [orbitLines set_orbitLines app]. split_and!; [done|done| |].
  - destruct (buildOrbits_loop _ _ _ _); [|done]. intros _. by rewrite Hend.
  - destruct (buildOrbits_loop _ _ _ _); [done|]. intros _.
    destruct Hend as (p & i & Hp & Hi & Hnone). split; [|by exists p, i].
    by apply lookup_lt_Some in Hp.
Qed.

Lemma handle_orbitLines (e : Event) (s : State) :
  length (orbitLines s) ≤ 8 → length (orbitLines (state_of (handle e s))) ≤ 8.
Proof.
  intros H. destruct e; simpl; try done.
  - unfold pointermove. by repeat case_match.
  - by destruct hit.
  - unfold btnNow_click, buildOrbits.
    destruct (buildOrbits_loop_lines bodies
                (simTime (resetTrails (set_simTime (MakeTime date) s)))
                (set_orbitLines [] (resetTrails (set_simTime (MakeTime date) s))))
      as (lines & E & _ & Hend).
    rewrite E. cbn [orbitLines set_orbitLines app].
    destruct (buildOrbits_loop _ _ _ _).
    + by rewrite Hend.
    + destruct Hend as (p & i & Hp & _). apply lookup_lt_Some in Hp.
      simpl in Hp. lia.
  - destruct (framePending s); [|done].
    destruct (tick_keeps HelioVector Math_cos Math_sin now (set_framePending false s))
      as (_&_&_&_&_&_&_&E&_).
    by rewrite E.
Qed.

(** X14.  In every store the events can reach there are at most 8 orbit
    lines: the Now button rebuilds the lines, it never adds to them. *)
Theorem orbit_lines_never_pile_up (date now : Q) (es : list Event) :
  length (orbitLines (run es (state_of (main date now)))) ≤ 8.
Proof.
  assert (length (orbitLines (state_of (main date now))) ≤ 8) as H0.
  { unfold main, buildOrbits.
    destruct (buildOrbits_loop_lines bodies
                (simTime (updateCamera Math_cos Math_sin (declared date now)))
                (set_orbitLines [] (updateCamera Math_cos Math_sin (declared date now))))
      as (lines & E & _ & Hend).
    destruct (buildOrbits_loop _ _ _ _); simpl in E; subst;
      cbn [orbitLines set_orbitLines set_framePending state_of app].
    - by rewrite Hend.
    - destruct Hend as (p & i & Hp & _). apply lookup_lt_Some in Hp.
      simpl in Hp. lia. }
  revert H0. generalize (state_of (main date now)).
  induction es as [|e es IH]; intros s H; [done|].
  apply IH, handle_orbitLines, H.
Qed.

End Orbits.

(** * Examples *)

Local Open Scope Q_scope.

(** C1, the claim as stated fails: with a time stamp 1 ms before [last]
    the delta is -0.001 s and an unpaused frame at scale 600 moves the
    clock back by 0.6 simulated seconds, where [clamp(d, 0, 0.05)] would
    leave it where it is. *)
Lemma tick_negative_delta_not_clamped :
  let s' := state_of (tick stubHelio stubCos stubSin 999 started) in
  paused started = false
  ∧ timeScale started = 600
  ∧ (999 - last started) / 1000 == -0.001
  ∧ ut (simTime s') == ut (simTime started) + -0.001 * 600 / 86400
  ∧ spec_clamp ((999 - last started) / 1000) 0 0.05 == 0
  ∧ ¬ ut (simTime s')
      == ut (simTime started)
         + spec_clamp ((999 - last started) / 1000) 0 0.05 * timeScale started / 86400.
Proof. by vm_compute. Qed.

Lemma tick_advances_clock_witness :
  paused started = false
  ∧ 0 <= (1050 - last started) / 1000
  ∧ ut (simTime (state_of (tick stubHelio stubCos stubSin 1050 started)))
    == ut (simTime started)
       + spec_clamp ((1050 - last started) / 1000) 0 0.05 * timeScale started / 86400.
Proof.
  destruct (tick_advances_clock stubHelio stubCos stubSin 1050 started)
    as (_ & H & _).
  split; [reflexivity|]. split; [by vm_compute|].
  apply H; [reflexivity|by vm_compute].
Defined.

(** C2, the claim as stated fails: at scale 600 a frame one real second
    after the last one moves the clock by 30 simulated seconds, not 600. *)
Lemma tick_one_second_is_not_600 :
  let s' := state_of (tick stubHelio stubCos stubSin 2000 started) in
  paused started = false
  ∧ timeScale started == 600
  ∧ (2000 - last started) / 1000 == 1
  ∧ ut (simTime s') == ut (simTime started) + 30 / 86400
  ∧ ¬ ut (simTime s') == ut (simTime started) + 600 / 86400.
Proof. by vm_compute. Qed.

Lemma tick_one_second_at_600_witness :
  paused started = false
  ∧ timeScale started == 600
  ∧ (2000 - last started) / 1000 == 1
  ∧ ut (simTime (state_of (tick stubHelio stubCos stubSin 2000 started)))
    == ut (simTime started) + 30 / 86400.
Proof.
  split; [reflexivity|]. split; [by vm_compute|]. split; [by vm_compute|].
  apply (tick_one_second_at_600 stubHelio stubCos stubSin 2000 started);
    [reflexivity|by vm_compute|by vm_compute].
Defined.

(** C3, the claim as stated fails: on an ephemeris with no position of
    Venus at the frame's time, the frame ends with the exception.  The
    Earth comes after Venus in the catalog: its query would have
    succeeded, yet its mesh is not moved; the camera is not updated to
    the distance set by the wheel; nothing is rendered and no further
    frame is requested. *)
Lemma failure_of_one_body_stops_the_frame :
  let s := wheel 1 started_gap in
  let o := handle gapHelio stubCos stubSin (AnimationFrame 1050) s in
  let t := simTime (state_of o) in
  framePending s = true
  ∧ gapHelio Venus t = None
  ∧ gapHelio Earth t = Some (Vector3.mk 1 2 3)
  ∧ returned o = false
  ∧ planetMeshes (state_of o) !! 0%nat = Some (scene_pos (Vector3.mk 1 2 3))
  ∧ planetMeshes (state_of o) !! 2%nat = Some (Vector3.mk 0 0 0)
  ∧ scene_pos (Vector3.mk 1 2 3) ≠ Vector3.mk 0 0 0
  ∧ camera (state_of o) = camera s
  ∧ camera (updateCamera stubCos stubSin (state_of o)) ≠ camera s
  ∧ rendered (state_of o) = 0%nat
  ∧ framePending (state_of o) = false.
Proof. by vm_compute. Qed.

Lemma ephemeris_failure_ends_frame_witness :
  let s := run gapHelio stubCos stubSin [Wheel 1] (state_of (main gapHelio stubCos stubSin 0 1000)) in
  bodies !! 1%nat = Some venus
  ∧ gapHelio Venus (simTime (tick_clock 1050 s)) = None
  ∧ ∃ s', tick gapHelio stubCos stubSin 1050 s = Thrown s'
      ∧ camera s' = camera s
      ∧ planetMeshes s' !! 2%nat = planetMeshes s !! 2%nat
      ∧ planetMeshes s' !! 0%nat = Some (scene_pos (Vector3.mk 1 2 3)).
Proof.
  intros s.
  assert (bodies !! 1%nat = Some venus) as Hk by reflexivity.
  assert (gapHelio Venus (simTime (tick_clock 1050 s)) = None) as Hnone
    by (by vm_compute).
  assert (∀ j q, (j < 1)%nat → bodies !! j = Some q →
            is_Some (gapHelio (Planet.body q) (simTime (tick_clock 1050 s))))
    as Hbefore0.
  { intros [|j] q Hj Hq; [|lia]. injection Hq as <-. by eexists. }
  split; [exact Hk|]. split; [exact Hnone|].
  destruct (ephemeris_failure_ends_frame gapHelio stubCos stubSin 0 1000
              [Wheel 1] 1050 1%nat venus Hk Hnone Hbefore0)
    as (s' & Hrun & Hcam & _ & _ & _ & _ & _ & Hafter & Hbefore).
  exists s'. split; [exact Hrun|]. split; [exact Hcam|]. split.
  - apply (Hafter 2%nat earth); [lia|reflexivity].
  - apply (Hbefore 0%nat (Planet.mk "Mercury" Mercury 0xbab3a6 3.2 "Small, fast, cratered."));
      [lia|reflexivity|by vm_compute].
Defined.

(** C4, the claim as stated fails: after 221 pushes into a fresh trail of
    capacity 220 the polyline has 220 points, but it starts with the
    newest position (the 221st, written over storage index 0) followed by
    the oldest of the last 220 (the 2nd); it is not the last 220
    positions in push order.  The same in the running module: after 221
    frames the first point of the Earth's polyline is the Earth's current
    position. *)
Lemma trail_polyline_not_in_push_order :
  let tr := pushes (numbered 221) newTrail in
  let polyline := drawn (Trail.line tr) in
  let s := state_of (frames stubHelio stubCos stubSin (stamps 1000 221) started) in
  length polyline = 220%nat
  ∧ polyline !! 0%nat = Some (Vector3.mk 221 0 0)
  ∧ polyline !! 1%nat = Some (Vector3.mk 2 0 0)
  ∧ drop (221 - 220) (numbered 221) !! 0%nat = Some (Vector3.mk 2 0 0)
  ∧ polyline ≠ drop (221 - 220) (numbered 221)
  ∧ Trail.count <$> trails s !! "Earth"%string = Some 221%nat
  ∧ (λ tr, drawn (Trail.line tr) !! 0%nat) <$> trails s !! "Earth"%string
    = Some (planetMeshes s !! 2%nat).
Proof.
  intros tr polyline s. split_and!; by vm_compute.
Qed.

Lemma trail_polyline_is_raw_storage_witness :
  let tr' := pushes (numbered 221) newTrail in
  let k := (Trail.count tr' mod 220)%nat in
  trail_ok newTrail = true
  ∧ (Trail.maxPts newTrail ≤ length (numbered 221))%nat
  ∧ drop k (drawn (Trail.line tr')) ++ take k (drawn (Trail.line tr'))
    = drop (length (numbered 221) - 220) (numbered 221).
Proof.
  intros tr' k.
  assert (trail_ok newTrail = true) as Hok by (by vm_compute).
  assert (Trail.maxPts newTrail ≤ length (numbered 221))%nat as Hlen
    by (vm_compute; lia).
  split; [exact Hok|]. split; [exact Hlen|].
  apply (trail_polyline_is_raw_storage newTrail (numbered 221) Hok Hlen).
Defined.

Lemma trail_push_and_clear_witness :
  earth ∈ bodies
  ∧ ∃ tr,
      trails (run stubHelio stubCos stubSin
                [AnimationFrame 1050; AnimationFrame 1100]
                (state_of (main stubHelio stubCos stubSin 0 1000)))
        !! "Earth"%string = Some tr
      ∧ Line.drawRange (Trail.line tr)
        = (0, Nat.min (Trail.maxPts tr) (Trail.count tr))%nat
      ∧ ∀ pos, drawn (Trail.line (tick_trail pos (resetTrail tr))) = [pos].
Proof.
  assert (earth ∈ bodies) as Hin by (do 2 right; left).
  split; [exact Hin|].
  destruct (trail_push_and_clear stubHelio stubCos stubSin 0 1000
              [AnimationFrame 1050; AnimationFrame 1100] earth Hin)
    as (tr & Htr & Hrange & _ & _ & _ & _ & _ & Hone).
  exists tr. split; [exact Htr|]. split; [exact Hrange|exact Hone].
Defined.

(** C6, the claim as stated fails: with trails hidden a frame moves the
    Earth's mesh but pushes nothing into its trail: count stays 0, and
    showing the trails again draws nothing. *)
Lemma hidden_trails_miss_the_frame :
  let s := btnTrails_click started in
  let o := tick stubHelio stubCos stubSin 1050 s in
  showTrails s = false
  ∧ returned o = true
  ∧ planetMeshes s !! 2%nat = Some (Vector3.mk 0 0 0)
  ∧ planetMeshes (state_of o) !! 2%nat ≠ Some (Vector3.mk 0 0 0)
  ∧ Trail.count <$> trails s !! "Earth"%string = Some 0%nat
  ∧ Trail.count <$> trails (state_of o) !! "Earth"%string = Some 0%nat
  ∧ showTrails (btnTrails_click (state_of o)) = true
  ∧ (λ tr, drawn (Trail.line tr))
      <$> trails (btnTrails_click (state_of o)) !! "Earth"%string
    = Some [].
Proof. by vm_compute. Qed.

Lemma hidden_trails_do_not_record_witness :
  let s := btnTrails_click started in
  showTrails s = false
  ∧ trails (state_of (tick stubHelio stubCos stubSin 1050 s)) = trails s.
Proof.
  intros s. split; [reflexivity|].
  destruct (hidden_trails_do_not_record stubHelio stubCos stubSin s)
    as (_ & _ & H & _).
  apply H. reflexivity.
Defined.



Lemma camera_ranges_kept_witness :
  let s := run stubHelio stubCos stubSin [Wheel 1; Wheel 1]
             (state_of (main stubHelio stubCos stubSin 0 1000)) in
  500 <= 900 - 100
  ∧ Controls.pitch (controls (pointermove 10 900 (Vector3.mk 1 0 0)
                                (pointerdown 0 10 100 s))) = -1.25.
Proof.
  intros s. split; [by vm_compute|].
  destruct (camera_ranges_kept stubHelio stubCos stubSin 0 1000 [Wheel 1; Wheel 1])
    as (_ & H).
  apply (H 0%Z 10 100 10 900 (Vector3.mk 1 0 0)); [done|by vm_compute].
Defined.

(** C9, the claim as stated fails: a zoom(+1) step raises the distance
    (900 to 972) and repeated it ends at 12000, not near 50; a zoom(-1)
    step lowers it (900 to 828) and repeated it ends at 50, not near
    12000. *)
Lemma zoom_plus_moves_away :
  let zoom deltaY n :=
    Controls.distance (controls (Nat.iter n (wheel deltaY) started)) in
  zoom 1 0%nat == 900
  ∧ Math_sign 1 = 1 ∧ zoom 1 1%nat == 972 ∧ zoom 1 73%nat == 12000
  ∧ Math_sign (-1) = -1 ∧ zoom (-1) 1%nat == 828 ∧ zoom (-1) 67%nat == 50
  ∧ ¬ zoom 1 1%nat <= zoom 1 0%nat.
Proof. by vm_compute. Qed.

Lemma wheel_zoom_steps_witness :
  0 < 1
  ∧ Controls.distance (controls (Nat.iter 100 (wheel 1) started)) == 12000.
Proof.
  split; [reflexivity|].
  destruct (wheel_zoom_steps 1 started) as (_ & _ & H & _).
  destruct H as [_ H]; [reflexivity|].
  apply H. lia.
Defined.

Lemma paused_frames_fill_trail_witness :
  let s := click (Some earth) (btnPause_click started) in
  scene_ok s = true ∧ paused s = true ∧ showTrails s = true
  ∧ selected s = Some earth ∧ date_valid (simTime s) = true
  ∧ stubHelio Earth (simTime s) = Some (Vector3.mk 0 1 2)
  ∧ trails s !! "Earth"%string = Some newTrail
  ∧ trails (state_of (tick stubHelio stubCos stubSin 1050 s)) !! "Earth"%string
    = Some (tick_trail (scene_pos (Vector3.mk 0 1 2)) newTrail)
  ∧ ∃ s' tr',
      frames stubHelio stubCos stubSin (stamps 1000 220) s = Returned s'
      ∧ trails s' !! "Earth"%string = Some tr'
      ∧ Trail.count tr' = 220%nat
      ∧ drawn (Trail.line tr') = replicate 220 (scene_pos (Vector3.mk 0 1 2)).
Proof.
  intros s.
  assert (scene_ok s = true) as Hok by (by vm_compute).
  assert (date_valid (simTime s) = true) as Hdate by (by vm_compute).
  assert (stubHelio Earth (simTime s) = Some (Vector3.mk 0 1 2)) as Hv
    by reflexivity.
  assert (trails s !! "Earth"%string = Some newTrail) as Htr by (by vm_compute).
  split; [exact Hok|]. split; [reflexivity|]. split; [reflexivity|].
  split; [reflexivity|]. split; [exact Hdate|].
  split; [exact Hv|]. split; [exact Htr|].
  assert (∀ q, q ∈ bodies → is_Some (stubHelio (Planet.body q) (simTime s)))
    as Hall by (intros q _; by eexists).
  assert (earth ∈ bodies) as Hin by (do 2 right; left).
  destruct (paused_frames_fill_trail stubHelio stubCos stubSin s (stamps 1000 220)
              earth (Vector3.mk 0 1 2) newTrail Hok eq_refl eq_refl Hall Hin Hv Htr)
    as (Hone & Hmany).
  split; [exact (proj1 (proj2 (Hone 1050)))|].
  destruct (Hmany (or_intror Hdate)) as (s' & tr' & Hrun & _ & Htr' & _ & Hc & Hd).
  exists s', tr'. split; [exact Hrun|]. split; [exact Htr'|]. split.
  - exact Hc.
  - apply Hd. vm_compute. lia.
Defined.

(** ** Examples for the further properties *)

Lemma returned_frame_places_meshes_witness :
  ∃ s' v,
    tick stubHelio stubCos stubSin 1050 started = Returned s'
    ∧ stubHelio Earth (simTime s') = Some v
    ∧ planetMeshes s' !! 2%nat = Some (scene_pos v)
    ∧ rendered s' = S (rendered started).
Proof.
  assert (returned (tick stubHelio stubCos stubSin 1050 started) = true) as Hret
    by (by vm_compute).
  destruct (tick stubHelio stubCos stubSin 1050 started) as [s'|s'] eqn:Hrun;
    [|discriminate Hret].
  destruct (returned_frame_places_meshes stubHelio stubCos stubSin 1050 started s' Hrun)
    as (Hall & Hr & _).
  destruct (Hall 2%nat earth eq_refl) as (v & Hv & Hm & _).
  exists s', v. by split_and!.
Defined.

Lemma info_panel_follows_selection_witness :
  let s := click (Some earth) started in
  selected s = Some earth ∧ info s = InfoHint
  ∧ ∃ s' v,
      tick stubHelio stubCos stubSin 1050 s = Returned s'
      ∧ stubHelio Earth (simTime s') = Some v
      ∧ info s' = InfoPlanet earth (swap_axes v) (simTime s').
Proof.
  intros s. split; [reflexivity|]. split; [by vm_compute|].
  assert (returned (tick stubHelio stubCos stubSin 1050 s) = true) as Hret
    by (by vm_compute).
  destruct (tick stubHelio stubCos stubSin 1050 s) as [s'|s'] eqn:Hrun;
    [|discriminate Hret].
  destruct (info_panel_follows_selection stubHelio stubCos stubSin 1050 s)
    as (H & _).
  destruct (H s' earth Hrun eq_refl) as (v & Hv & Hi & _); [do 2 right; left|].
  exists s', v. by split_and!.
Defined.

Lemma trail_appends_until_full_witness :
  trail_ok newTrail = true
  ∧ (Trail.count newTrail + length (numbered 220) ≤ Trail.maxPts newTrail)%nat
  ∧ drawn (Trail.line (pushes (numbered 220) newTrail))
    = drawn (Trail.line newTrail) ++ numbered 220.
Proof.
  assert (trail_ok newTrail = true) as Hok by (by vm_compute).
  assert (Trail.count newTrail + length (numbered 220) ≤ Trail.maxPts newTrail)%nat
    as Hlen by (vm_compute; lia).
  split; [exact Hok|]. split; [exact Hlen|].
  apply (trail_appends_until_full newTrail (numbered 220) Hok Hlen).
Defined.

Lemma trail_storage_is_fixed_witness :
  let s := run stubHelio stubCos stubSin
             (AnimationFrame <$> stamps 1000 3)
             (state_of (main stubHelio stubCos stubSin 0 1000)) in
  "Earth"%string ∈ Planet.key <$> bodies
  ∧ ∃ tr, trails s !! "Earth"%string = Some tr ∧ Trail.maxPts tr = 220%nat
      ∧ length (Line.array (Trail.line tr)) = 660%nat.
Proof.
  intros s.
  assert ("Earth"%string ∈ Planet.key <$> bodies) as Hin
    by (apply (bool_decide_unpack _); by vm_compute).
  split; [exact Hin|].
  destruct (trail_storage_is_fixed stubHelio stubCos stubSin 0 1000
              (AnimationFrame <$> stamps 1000 3) "Earth"%string) as [Hdom Hsize].
  destruct (proj2 Hdom Hin) as [tr Htr].
  destruct (Hsize tr Htr) as (Hm & Hl & _).
  exists tr. by split_and!.
Defined.

Lemma stopped_loop_never_resumes_witness :
  let s := state_of (handle gapHelio stubCos stubSin (AnimationFrame 1050) started_gap) in
  let es := [AnimationFrame 1100; Wheel 1; AnimationFrame 1150] in
  returned (handle gapHelio stubCos stubSin (AnimationFrame 1050) started_gap) = false
  ∧ framePending s = false
  ∧ rendered (run gapHelio stubCos stubSin es s) = rendered s
  ∧ camera (run gapHelio stubCos stubSin es s) = camera s.
Proof.
  intros s es.
  assert (returned (handle gapHelio stubCos stubSin (AnimationFrame 1050) started_gap)
          = false) as Hret by (by vm_compute).
  destruct (stopped_loop_never_resumes gapHelio stubCos stubSin started_gap)
    as (Hthrown & _ & _).
  pose proof (Hthrown 1050 Hret) as Hf. fold s in Hf.
  destruct (stopped_loop_never_resumes gapHelio stubCos stubSin s) as (_ & _ & Hstay).
  destruct (Hstay Hf es) as (_ & Hr & _ & Hc).
  by split_and!.
Defined.

Local Open Scope Q_scope.

Lemma clock_keeps_pace_witness :
  let s' := state_of (frames stubHelio stubCos stubSin (stamps 1000 3) started) in
  paused started = false
  ∧ paced (last started) (stamps 1000 3)
  ∧ ut (simTime s')
    == ut (simTime started)
       + ((last s' - last started) / 1000 * timeScale started) / 86400.
Proof.
  intros s'.
  assert (paced (last started) (stamps 1000 3)) as Hpaced
    by (by vm_compute).
  split; [reflexivity|]. split; [exact Hpaced|].
  apply (clock_keeps_pace stubHelio stubCos stubSin (stamps 1000 3) started eq_refl Hpaced).
Defined.

Lemma clock_follows_scale_sign_witness :
  let s := timeScaleInput_input (-600) started in
  paused s = false ∧ last s <= 1050 ∧ timeScale s <= 0
  ∧ ut (simTime (state_of (tick stubHelio stubCos stubSin 1050 s))) <= ut (simTime s).
Proof.
  intros s.
  assert (last s <= 1050) as Hle by (by vm_compute).
  assert (timeScale s <= 0) as Hs by (by vm_compute).
  split; [reflexivity|]. split; [exact Hle|]. split; [exact Hs|].
  apply (clock_follows_scale_sign stubHelio stubCos stubSin 1050 s eq_refl Hle).
  exact Hs.
Defined.

Lemma drag_depends_on_path_end_witness :
  let path := [(30, 40); (-5, 12); (0, 0)] in
  path_end 0 0 path = (0, 0)
  ∧ same_point
      (Controls.target
         (controls (moves (Vector3.mk 1 0 0) path (pointerdown 2 0 0 started))))
      (Controls.target (controls started)).
Proof.
  intros path. split; [reflexivity|].
  destruct (drag_depends_on_path_end 2 0 0 (Vector3.mk 1 0 0) path started)
    as (_ & H & _).
  destruct (H eq_refl) as (_ & Hback & _).
  apply Hback. reflexivity.
Defined.

Lemma rat_pythagoras (a : Q) : ratCos a * ratCos a + ratSin a * ratSin a == 1.
Proof.
  unfold ratCos, ratSin. field. intros E.
  assert (0 <= a * a) by (destruct (Qlt_le_dec a 0); nra). lra.
Qed.

Lemma camera_pose_on_sphere_witness :
  (∀ a, ratCos a * ratCos a + ratSin a * ratSin a == 1)
  ∧ dist2 (Camera.position (camera (updateCamera ratCos ratSin started)))
      (Controls.target (controls started))
    == Controls.distance (controls started) * Controls.distance (controls started).
Proof.
  split; [exact rat_pythagoras|].
  destruct (camera_pose_on_sphere stubHelio ratCos ratSin rat_pythagoras started)
    as (H & _).
  exact H.
Defined.

Local Open Scope nat_scope.

Lemma orbit_lines_sampled_witness :
  let o := buildOrbits gapHelio (MakeTime (1 # 4)) started_gap in
  let o' := buildOrbits stubHelio (MakeTime (1 # 4)) started in
  returned o = false ∧ length (orbitLines (state_of o)) < 8
  ∧ returned o' = true ∧ length (orbitLines (state_of o')) = 8.
Proof.
  intros o o'.
  assert (returned o = false) as Hret by (by vm_compute).
  assert (returned o' = true) as Hret' by (by vm_compute).
  destruct (orbit_lines_sampled gapHelio (MakeTime (1 # 4)) started_gap)
    as (_ & _ & _ & Hthrown).
  destruct (orbit_lines_sampled stubHelio (MakeTime (1 # 4)) started)
    as (_ & _ & Hgood & _).
  destruct (Hthrown Hret) as [Hlt _].
  split; [exact Hret|]. split; [exact Hlt|]. split; [exact Hret'|].
  exact (Hgood Hret').
Defined.

Lemma invalid_date_stops_frame_witness :
  let s := set_simTime (MakeTime 100000000) (click (Some earth) started) in
  scene_ok s = true ∧ selected s = Some earth
  ∧ date_valid (simTime (tick_clock 1050 s)) = false
  ∧ ∃ s', tick stubHelio stubCos stubSin 1050 s = Thrown s'
      ∧ camera s' = camera (updateCamera stubCos stubSin s)
      ∧ info s' = info s ∧ rendered s' = rendered s
      ∧ framePending s' = framePending s.
Proof.
  intros s.
  assert (scene_ok s = true) as Hok by (by vm_compute).
  assert (date_valid (simTime (tick_clock 1050 s)) = false) as Hdate
    by (by vm_compute).
  assert (∀ p, p ∈ bodies →
            is_Some (stubHelio (Planet.body p) (simTime (tick_clock 1050 s))))
    as Hall by (intros p _; by eexists).
  assert (earth ∈ bodies) as Hin by (do 2 right; left).
  split; [exact Hok|]. split; [reflexivity|]. split; [exact Hdate|].
  destruct (invalid_date_stops_frame stubHelio stubCos stubSin 1050 s earth
              Hok eq_refl Hin Hall) as (_ & H).
  destruct (H Hdate) as (s' & Hrun & _ & _ & Hc & Hi & Hr & Hf).
  exists s'. split; [exact Hrun|]. split; [exact Hc|]. split; [exact Hi|].
  split; [exact Hr|exact Hf].
Defined.
